(** * The spinner state engine of the Ramaz Challenge & Spinner app

    A shallow embedding of [spinner.js] and of the part of [storage.js] it
    calls, followed by the properties of the engine.

    Conventions of the embedding.
    - A JavaScript object used as a mapping from category names to arrays of
      labels is a [gmap string (list string)]; [obj[k]] is the lookup
      [obj !! k], [undefined] is [None].  Only own properties are modelled:
      category names are assumed not to be names of [Object.prototype].
    - An array of labels is a [list string]; arrays held by different objects
      are never aliased in the source ([concat], [filter] and the spread
      produce fresh arrays, the store holds JSON text), so in-place mutation
      of [categories[c]] is an update of the mapping at [c].
    - The module-level variables of [spinner.js] and the browser's local
      store form one explicit [State]; every event handler is a function
      from states to outcomes.
    - [Math.random] is injected: a handler receives the natural numbers from
      which its indices are taken. *)

From stdpp Require Import gmap strings list fin_maps.

Abbreviation jsobj := (gmap string (list string)).

(** ** storage.js *)
Module storage.

(** The values kept under the prefix ['ramaz.'], one field per key that
    the spinner reads or writes; [None] is a key that is not in the store.
    A key that is present holds a value of the shape the spinner writes
    under it, and the store takes every write (a write that the browser
    refuses is logged and dropped by [set]; that path is left out).
    - ['spinner.additions']                [spinner_additions]
    - ['spinner.exclusions']               [spinner_exclusions]
    - ['spinner.history']                  [spinner_history]
    - ['spinner.settings.excludePicked']   [spinner_settings_excludePicked]
    - ['spinner.settings.showHistory']     [spinner_settings_showHistory]
    - ['spinner.activeCategory']           [spinner_activeCategory] *)
Record Store := mkStore {
  spinner_additions : option jsobj;
  spinner_exclusions : option jsobj;
  spinner_history : option jsobj;
  spinner_settings_excludePicked : option bool;
  spinner_settings_showHistory : option bool;
  spinner_activeCategory : option string;
}.

Definition empty : Store := mkStore None None None None None None.

(** [get(key, defaultValue)]: the parsed value, or [defaultValue] when the
    key is absent. *)
Definition get {A} (raw : option A) (defaultValue : A) : A :=
  match raw with
  | None => defaultValue
  | Some parsed => parsed
  end.

(** [set(key, value)], key by key. *)
Definition set_additions (v : jsobj) (st : Store) : Store :=
  mkStore (Some v) (spinner_exclusions st) (spinner_history st)
          (spinner_settings_excludePicked st) (spinner_settings_showHistory st)
          (spinner_activeCategory st).

Definition set_exclusions (v : jsobj) (st : Store) : Store :=
  mkStore (spinner_additions st) (Some v) (spinner_history st)
          (spinner_settings_excludePicked st) (spinner_settings_showHistory st)
          (spinner_activeCategory st).

Definition set_history (v : jsobj) (st : Store) : Store :=
  mkStore (spinner_additions st) (spinner_exclusions st) (Some v)
          (spinner_settings_excludePicked st) (spinner_settings_showHistory st)
          (spinner_activeCategory st).

Definition set_excludePicked (v : bool) (st : Store) : Store :=
  mkStore (spinner_additions st) (spinner_exclusions st) (spinner_history st)
          (Some v) (spinner_settings_showHistory st)
          (spinner_activeCategory st).

Definition set_showHistory (v : bool) (st : Store) : Store :=
  mkStore (spinner_additions st) (spinner_exclusions st) (spinner_history st)
          (spinner_settings_excludePicked st) (Some v)
          (spinner_activeCategory st).

Definition set_activeCategory (v : string) (st : Store) : Store :=
  mkStore (spinner_additions st) (spinner_exclusions st) (spinner_history st)
          (spinner_settings_excludePicked st) (spinner_settings_showHistory st)
          (Some v).

(** What the spinner reads back, with the defaults it passes to [get]. *)
Definition additions_of (st : Store) : jsobj := get (spinner_additions st) ∅.
Definition exclusions_of (st : Store) : jsobj := get (spinner_exclusions st) ∅.
Definition history_of (st : Store) : jsobj := get (spinner_history st) ∅.

End storage.

(** ** spinner.js *)
Module spinner.

Import storage.

(** *** Arrays *)

(** [arr.includes(x)] on an array of strings. *)
Fixpoint includes (arr : list string) (x : string) : bool :=
  match arr with
  | [] => false
  | y :: rest => if String.eqb y x then true else includes rest x
  end.

(** [obj[k] || []]: an array is truthy even when empty, so the right
    operand is taken exactly when the property is undefined. *)
Definition or_empty (v : option (list string)) : list string :=
  match v with
  | Some arr => arr
  | None => []
  end.

(** [arr.splice(index, 1)]. *)
Definition splice1 (index : nat) (arr : list string) : list string :=
  take index arr ++ drop (S index) arr.

(** [[arr[i], arr[j]] = [arr[j], arr[i]]]: the right-hand side is read
    first, then position [i] and position [j] are written in that order.
    Both indices are inside the array wherever the source swaps. *)
Definition swap (i j : nat) (arr : list string) : list string :=
  match arr !! i, arr !! j with
  | Some ai, Some aj => <[j := ai]> (<[i := aj]> arr)
  | _, _ => arr
  end.

(** [Math.floor(Math.random() * n)] for the injected draw [r]: every index
    below [n] and no other can come out when [0 < n]. *)
Definition random_index (r n : nat) : nat := r mod n.

(** *** The module state *)

(** The configuration handed to [init]: [cfg_categories] is the
    [categories] property, its entries listed in the order of
    [Object.keys]; [None] is a configuration without that property. *)
Record SpinnerConfig := mkConfig {
  cfg_categories : option (list (string * list string));
}.

Record State := mkState {
  categories : jsobj;
  baseCategories : jsobj;
  additions : jsobj;
  currentCategory : option string;    (* [None] is [undefined] *)
  history : jsobj;
  excludePicked : bool;
  showHistory : bool;
  resultDisplay : string;             (* [resultDisplay.textContent] *)
  localStorage : Store;
}.

(** The property name under which [currentCategory] indexes an object:
    [undefined] is converted to the string ["undefined"]. *)
Definition key (s : State) : string :=
  match currentCategory s with
  | Some c => c
  | None => "undefined"%string
  end.

(** The live pool of the active category, [categories[currentCategory] || []]. *)
Definition pool (s : State) : list string := or_empty (categories s !! key s).

Definition with_categories (v : jsobj) (s : State) : State :=
  mkState v (baseCategories s) (additions s) (currentCategory s) (history s)
          (excludePicked s) (showHistory s) (resultDisplay s) (localStorage s).

Definition with_additions (v : jsobj) (s : State) : State :=
  mkState (categories s) (baseCategories s) v (currentCategory s) (history s)
          (excludePicked s) (showHistory s) (resultDisplay s) (localStorage s).

Definition with_currentCategory (v : option string) (s : State) : State :=
  mkState (categories s) (baseCategories s) (additions s) v (history s)
          (excludePicked s) (showHistory s) (resultDisplay s) (localStorage s).

Definition with_history (v : jsobj) (s : State) : State :=
  mkState (categories s) (baseCategories s) (additions s) (currentCategory s) v
          (excludePicked s) (showHistory s) (resultDisplay s) (localStorage s).

Definition with_excludePicked (v : bool) (s : State) : State :=
  mkState (categories s) (baseCategories s) (additions s) (currentCategory s)
          (history s) v (showHistory s) (resultDisplay s) (localStorage s).

Definition with_showHistory (v : bool) (s : State) : State :=
  mkState (categories s) (baseCategories s) (additions s) (currentCategory s)
          (history s) (excludePicked s) v (resultDisplay s) (localStorage s).

Definition with_resultDisplay (v : string) (s : State) : State :=
  mkState (categories s) (baseCategories s) (additions s) (currentCategory s)
          (history s) (excludePicked s) (showHistory s) v (localStorage s).

Definition with_localStorage (v : Store) (s : State) : State :=
  mkState (categories s) (baseCategories s) (additions s) (currentCategory s)
          (history s) (excludePicked s) (showHistory s) (resultDisplay s) v.

(** *** init *)

(** The body of the [forEach] in [init]:
    [base.concat(added).filter((item) => !excluded.includes(item))]. *)
Definition build_pool (base : list string) (added excluded : option (list string))
  : list string :=
  let combined := base ++ or_empty added in
  List.filter (λ item, negb (includes (or_empty excluded) item)) combined.

(** [Object.keys(baseCategories).forEach(...)]: one pool per own key of
    [baseCategories]. *)
Definition build_categories (base adds excl : jsobj) : jsobj :=
  map_imap (λ cat b, Some (build_pool b (adds !! cat) (excl !! cat))) base.

(** [populateCategorySelect]: the saved category when it names a pool,
    else the first key; [undefined] when there is no key at all.  The
    default handed to [get] is the first key, and [get] turns an undefined
    default into [null], which names no pool. *)
Definition populateCategorySelect (keys : list string) (cats : jsobj) (st : Store)
  : option string :=
  let savedCat := get (Some <$> spinner_activeCategory st) (head keys) in
  match savedCat with
  | Some c => if cats !! c is Some _ then Some c else head keys
  | None => head keys
  end.

(** [restoreState]: the last pick of the active category is shown again. *)
Definition last_pick (hist : jsobj) (cat : string) : option string :=
  match hist !! cat with
  | Some h => last h
  | None => None
  end.

(** [init(spinnerConfig)], started from a page whose result area shows
    [shown] and whose local store is [st]. *)
Definition init (spinnerConfig : SpinnerConfig) (shown : string) (st : Store) : State :=
  let entries := get (cfg_categories spinnerConfig) [] in
  let base : jsobj := list_to_map entries in
  let adds := get (spinner_additions st) ∅ in
  let exclusions := get (spinner_exclusions st) ∅ in
  let hist := get (spinner_history st) ∅ in
  let cats := build_categories base adds exclusions in
  let cur := populateCategorySelect (entries.*1) cats st in
  let cur_key := match cur with Some c => c | None => "undefined" end in
  mkState cats base adds cur hist
          (get (spinner_settings_excludePicked st) false)
          (get (spinner_settings_showHistory st) false)
          (match last_pick hist cur_key with Some item => item | None => shown end)
          st.

(** *** Event handlers *)

(** How a handler ends: it returns, or an exception leaves it with the
    module state as it was when the exception was raised. *)
Inductive outcome :=
  | Returned (s : State)
  | Threw (error : string) (s : State).

(** [spin()], with [r] the draw behind [Math.random()].  The display is
    the one left once the zero-delay timer of [announce] has run. *)
Definition spin (r : nat) (s : State) : outcome :=
  let pool := or_empty (categories s !! key s) in
  if decide (length pool = 0) then
    Returned (with_resultDisplay "No items available" s)
  else
    let index := random_index r (length pool) in
    match pool !! index with
    | None => Returned s                (* not reached: index < pool.length *)
    | Some item =>
        let s1 :=
          if excludePicked s then
            let exclusions := get (spinner_exclusions (localStorage s)) ∅ in
            let exclusions' :=
              <[key s := or_empty (exclusions !! key s) ++ [item]]> exclusions in
            with_localStorage (set_exclusions exclusions' (localStorage s))
              (with_categories (<[key s := splice1 index pool]> (categories s)) s)
          else s in
        let history' := <[key s := or_empty (history s !! key s) ++ [item]]> (history s) in
        Returned
          (with_resultDisplay item
             (with_localStorage (set_history history' (localStorage s1))
                (with_history history' s1)))
    end.

(** The loop of [shuffle]: [i] runs from [pool.length - 1] down to [1],
    [rnd i] is the draw of the iteration with counter [i]. *)
Fixpoint shuffle_loop (rnd : nat → nat) (i : nat) (pool : list string) : list string :=
  match i with
  | 0 => pool
  | S i' =>
      let j := random_index (rnd i) (i + 1) in
      shuffle_loop rnd i' (swap i j pool)
  end.

(** [shuffle()].  When the active category has no pool the loop runs on a
    fresh empty array and nothing is stored. *)
Definition shuffle (rnd : nat → nat) (s : State) : outcome :=
  let s1 :=
    match categories s !! key s with
    | Some pool =>
        with_categories
          (<[key s := shuffle_loop rnd (length pool - 1) pool]> (categories s)) s
    | None => s
    end in
  Returned (with_resultDisplay "Shuffled!" s1).

(** [reset()].  Spreading [baseCategories[currentCategory]] raises a
    [TypeError] when that property is undefined; the two deletions before
    it have been done and stored by then. *)
Definition reset (s : State) : outcome :=
  let exclusions := get (spinner_exclusions (localStorage s)) ∅ in
  let s1 := with_localStorage
              (set_exclusions (delete (key s) exclusions) (localStorage s)) s in
  let history' := delete (key s) (history s1) in
  let s2 := with_localStorage (set_history history' (localStorage s1))
              (with_history history' s1) in
  match baseCategories s2 !! key s with
  | None => Threw "TypeError: baseCategories[currentCategory] is not iterable" s2
  | Some base =>
      let added := or_empty (additions s2 !! key s) in
      Returned
        (with_resultDisplay "Reset!"
           (with_categories (<[key s := base ++ added]> (categories s2)) s2))
  end.

(** [clearHistory()]. *)
Definition clearHistory (s : State) : outcome :=
  let history' := delete (key s) (history s) in
  Returned
    (with_resultDisplay "History cleared"
       (with_localStorage (set_history history' (localStorage s))
          (with_history history' s))).

(** The [change] listener of the category select; [value] is the option
    chosen. *)
Definition selectCategory (value : string) (s : State) : outcome :=
  let shown := match last_pick (history s) value with
               | Some item => item
               | None => "Press Spin to start!"%string
               end in
  Returned
    (with_resultDisplay shown
       (with_localStorage (set_activeCategory value (localStorage s))
          (with_currentCategory (Some value) s))).

(** The [change] listeners of the two check boxes. *)
Definition setExcludePicked (checked : bool) (s : State) : outcome :=
  Returned (with_localStorage (set_excludePicked checked (localStorage s))
              (with_excludePicked checked s)).

Definition setShowHistory (checked : bool) (s : State) : outcome :=
  Returned (with_localStorage (set_showHistory checked (localStorage s))
              (with_showHistory checked s)).

(** [getExportCategories()]. *)
Definition getExportCategories (s : State) : jsobj :=
  map_imap (λ cat base, Some (base ++ or_empty (additions s !! cat))) (baseCategories s).

Section add_item.

(** [String.prototype.trim] belongs to the runtime, not to the source. *)
Variable trim : string → string.

(** [addNewItem()], with [input] the value of the text field. *)
Definition addNewItem (input : string) (s : State) : outcome :=
  let text := trim input in
  if decide (text = ""%string) then Returned s
  else
    let additions' := <[key s := or_empty (additions s !! key s) ++ [text]]> (additions s) in
    let s1 := with_localStorage (set_additions additions' (localStorage s))
                (with_additions additions' s) in
    Returned
      (with_resultDisplay ("Added: " +:+ text)
         (with_categories
            (<[key s := or_empty (categories s1 !! key s) ++ [text]]> (categories s1)) s1)).

End add_item.

(** *** The page as a transition system *)

(** What the user can do to the spinner panel. *)
Inductive event :=
  | Spin (r : nat)
  | Shuffle (rnd : nat → nat)
  | Reset
  | AddItem (input : string)
  | ClearHistory
  | SelectCategory (value : string)
  | SetExcludePicked (checked : bool)
  | SetShowHistory (checked : bool).

Definition handle (trim : string → string) (e : event) (s : State) : outcome :=
  match e with
  | Spin r => spin r s
  | Shuffle rnd => shuffle rnd s
  | Reset => reset s
  | AddItem input => addNewItem trim input s
  | ClearHistory => clearHistory s
  | SelectCategory value => selectCategory value s
  | SetExcludePicked checked => setExcludePicked checked s
  | SetShowHistory checked => setShowHistory checked s
  end.

(** The category select holds one option per key of the categories that
    [init] built, which are the keys of [baseCategories]; only such a
    value can be chosen. *)
Definition offered (e : event) (s : State) : Prop :=
  match e with
  | SelectCategory value => is_Some (baseCategories s !! value)
  | _ => True
  end.

(** The states of a session: the one [init] leaves, and every state a
    handler returns to. *)
Inductive reachable (trim : string → string) (cfg : SpinnerConfig) (shown : string)
    (st : Store) : State → Prop :=
  | reachable_init : reachable trim cfg shown st (init cfg shown st)
  | reachable_step s e s' :
      reachable trim cfg shown st s →
      offered e s →
      handle trim e s = Returned s' →
      reachable trim cfg shown st s'.

(** A [trim] for strings of ASCII characters: tab, line feed, vertical
    tab, form feed, carriage return and space are stripped at both ends. *)
Definition is_space (c : Ascii.ascii) : bool :=
  match Ascii.nat_of_ascii c with
  | 9 | 10 | 11 | 12 | 13 | 32 => true
  | _ => false
  end.

Fixpoint trim_start (s : string) : string :=
  match s with
  | String c rest => if is_space c then trim_start rest else s
  | EmptyString => EmptyString
  end.

Fixpoint trim_end (s : string) : string :=
  match s with
  | EmptyString => EmptyString
  | String c rest =>
      match trim_end rest with
      | EmptyString => if is_space c then EmptyString else String c EmptyString
      | kept => String c kept
      end
  end.

Definition trim_ascii (s : string) : string := trim_end (trim_start s).

End spinner.

(** ** The pool derivation as the design states it *)
Module design.

(** "given [base], [additions] (sequences of strings) and [exclusions]
    (a set of strings), produce [pool] = filter([base ++ additions], label
    not in [exclusions])". *)
Definition derive_pool (base additions : list string) (exclusions : gset string)
  : list string :=
  filter (λ label, label ∉ exclusions) (base ++ additions).

End design.

(** ** The scenarios of the design's test list *)
Module demo.

Import storage spinner.

Definition students : string := "Students".

(** base [{"Students": ["Ari","Leah","Noam"]}]. *)
Definition config : SpinnerConfig :=
  mkConfig (Some [(students, ["Ari"; "Leah"; "Noam"]%string)]).

(** exclusions [{"Students": ["Noam"]}], nothing else stored. *)
Definition noam_excluded : Store :=
  set_exclusions {[students := ["Noam"%string]]} storage.empty.

(** Every base label excluded: the pool is empty after [init]. *)
Definition exhausted : State :=
  init config "" (set_exclusions {[students := ["Ari"; "Leah"; "Noam"]%string]} storage.empty).

(** A store left behind by an earlier configuration whose only category
    was "Old". *)
Definition old : string := "Old".

Definition orphaned : Store :=
  mkStore (Some {[old := ["Zed"%string]]}) (Some {[old := ["Zed"%string]]})
          (Some {[old := ["Zed"%string]]}) None None (Some old).

(** A configuration whose [categories] mapping has no entry. *)
Definition no_categories : SpinnerConfig := mkConfig (Some []).

(** A pool with the same label twice, and the page after [init] and one
    spin under exclude-on-pick: one "Ari" is left in the pool, "Ari" is
    in the stored exclusions. *)
Definition twins : SpinnerConfig :=
  mkConfig (Some [(students, ["Ari"; "Ari"]%string)]).

Definition twins_after_one_pick : State :=
  match spin 0 (with_excludePicked true (init twins "" storage.empty)) with
  | Returned s => s
  | Threw _ s => s
  end.

(** The page after [init], pool [["Ari","Leah"]]. *)
Definition loaded : State := init config "" noam_excluded.

(** The same page with the exclude-on-pick box ticked. *)
Definition excluding : State :=
  match setExcludePicked true loaded with
  | Returned s => s
  | Threw _ s => s
  end.

End demo.

(** ** storage.js over the raw store *)
Module local_storage.

(** The browser's [localStorage]: item names to item texts. *)
Abbreviation items := (gmap string string).

Definition PREFIX : string := "ramaz.".

Section adapter.

(** The values that are stored, with the runtime's [JSON.stringify] and
    [JSON.parse]; [parse] is [None] where [JSON.parse] throws.  [accepts]
    tells whether the browser takes a write: [setItem] throws when the
    quota is exceeded. *)
Context {V : Type}.
Variable stringify : V → string.
Variable parse : string → option V.
Variable accepts : items → string → string → bool.

(** [get(key, defaultValue)]: an absent item and a text that does not
    parse both give the default. *)
Definition get (ls : items) (key : string) (defaultValue : V) : V :=
  match ls !! (PREFIX +:+ key) with
  | None => defaultValue
  | Some raw =>
      match parse raw with
      | Some value => value
      | None => defaultValue
      end
  end.

(** [set(key, value)]: a refused write is caught and the store is left as
    it is. *)
Definition set (ls : items) (key : string) (value : V) : items :=
  let raw := stringify value in
  if accepts ls (PREFIX +:+ key) raw then <[PREFIX +:+ key := raw]> ls else ls.

(** [remove(key)]. *)
Definition remove (ls : items) (key : string) : items :=
  delete (PREFIX +:+ key) ls.

End adapter.

(** The JSON texts of the two booleans, and a browser that takes every
    write. *)
Definition stringify_bool (b : bool) : string := if b then "true" else "false".

Definition parse_bool (raw : string) : option bool :=
  if decide (raw = "true") then Some true
  else if decide (raw = "false") then Some false
  else None.

Definition roomy (ls : items) (name raw : string) : bool := true.

End local_storage.

(** ** The rest of spinner.js and its callers *)
Module session.

Import storage spinner.

(** [updateHistoryUI()]: the texts of the list items it leaves in the
    history list, first item first. *)
Definition updateHistoryUI (s : State) : list string :=
  match history s !! key s with
  | Some h => if decide (0 < length h) then reverse h else []
  | None => []
  end.

(** [spinViaShortcut()] and [resetViaShortcut()]. *)
Definition spinViaShortcut (r : nat) (s : State) : outcome := spin r s.
Definition resetViaShortcut (s : State) : outcome := reset s.

(** [toggleHistoryViaShortcut()]: the check box is flipped and its [change]
    listener runs.  The box shows [showHistory]: [restoreState] sets it so
    and the listener copies every later change. *)
Definition toggleHistoryViaShortcut (s : State) : outcome :=
  setShowHistory (negb (showHistory s)) s.

(** One press of Spin per draw, in order. *)
Fixpoint spins (draws : list nat) (s : State) : outcome :=
  match draws with
  | [] => Returned s
  | r :: rest =>
      match spin r s with
      | Returned s' => spins rest s'
      | Threw error s' => Threw error s'
      end
  end.

(** The state a handler leaves, whether it returns or throws: the browser
    reports an exception that leaves a listener and the page goes on. *)
Definition leaves (o : outcome) : State :=
  match o with
  | Returned s => s
  | Threw _ s => s
  end.

(** The states a session goes through: the one [init] leaves and, from
    there, the state that each handler leaves. *)
Inductive visited (trim : string → string) (cfg : SpinnerConfig) (shown : string)
    (st : Store) : State → Prop :=
  | visited_init : visited trim cfg shown st (init cfg shown st)
  | visited_step s e :
      visited trim cfg shown st s →
      offered e s →
      visited trim cfg shown st (leaves (handle trim e s)).

(** The import handler of app.js, once the file has passed validation:
    [spinner.init(configData.spinner)] on the running page. *)
Definition reimport (spinnerConfig : SpinnerConfig) (s : State) : State :=
  init spinnerConfig (resultDisplay s) (localStorage s).

(** Reloading the page: [init] with the store as the session left it. *)
Definition reload (spinnerConfig : SpinnerConfig) (shown : string) (s : State) : State :=
  init spinnerConfig shown (localStorage s).

End session.

(** ** A short session on the demo page *)
Module demo_session.

Import storage spinner session.

(** Exclude-on-pick ticked, then one spin that draws index 1: "Leah" is
    picked, the pool is [["Ari"]]. *)
Definition after_pick : State :=
  match spin 1 demo.excluding with
  | Returned s => s
  | Threw _ s => s
  end.

(** Reset pressed after that pick. *)
Definition after_reset : State :=
  match reset after_pick with
  | Returned s => s
  | Threw _ s => s
  end.


(** "Dana" added on the freshly loaded page. *)
Definition after_add : State :=
  match addNewItem trim_ascii "Dana" demo.loaded with
  | Returned s => s
  | Threw _ s => s
  end.

End demo_session.

(** ** Properties of the engine *)
Module props.

Import storage spinner design.

(** *** Arrays *)

Lemma includes_elem_of (arr : list string) (x : string) :
  includes arr x = true ↔ x ∈ arr.
Proof.
  induction arr as [|y rest IH]; simpl.
  - rewrite elem_of_nil. split; [discriminate | tauto].
  - rewrite elem_of_cons.
    destruct (String.eqb_spec y x) as [->|Hne].
    + split; [by left | reflexivity].
    + rewrite IH. split; [by right | intros [Heq|H]; [congruence | exact H]].
Qed.

Lemma includes_false (arr : list string) (x : string) :
  includes arr x = false ↔ x ∉ arr.
Proof.
  rewrite <- includes_elem_of. destruct (includes arr x); split; congruence.
Qed.

Lemma js_filter_not_included (excluded combined : list string) :
  List.filter (λ item, negb (includes excluded item)) combined
  = filter (λ label, label ∉ excluded) combined.
Proof.
  induction combined as [|x rest IH]; [reflexivity|].
  simpl. rewrite filter_cons, IH.
  destruct (includes excluded x) eqn:Hx; simpl.
  - apply includes_elem_of in Hx. by rewrite decide_False by (intros Hn; by apply Hn).
  - apply includes_false in Hx. by rewrite decide_True.
Qed.

Lemma filter_keeps_all (P : string → Prop) `{!∀ x, Decision (P x)} (l : list string) :
  (∀ x, x ∈ l → P x) → filter P l = l.
Proof.
  induction l as [|x rest IH]; intros Hall; [reflexivity|].
  rewrite filter_cons_True by (apply Hall, elem_of_cons; by left).
  f_equal. apply IH. intros y Hy. apply Hall, elem_of_cons. by right.
Qed.

Lemma build_pool_derive (base : list string) (added excluded : option (list string)) :
  build_pool base added excluded
  = derive_pool base (or_empty added) (list_to_set (or_empty excluded)).
Proof.
  unfold build_pool, derive_pool. rewrite js_filter_not_included.
  apply list_filter_iff. intros x. by rewrite elem_of_list_to_set.
Qed.

Lemma splice1_delete (index : nat) (arr : list string) :
  splice1 index arr = delete index arr.
Proof. unfold splice1. by rewrite delete_take_drop. Qed.

Lemma random_index_small (i n : nat) : i < n → random_index i n = i.
Proof. intros H. unfold random_index. by apply Nat.mod_small. Qed.

Lemma random_index_lt (r n : nat) : 0 < n → random_index r n < n.
Proof. intros H. unfold random_index. apply Nat.mod_upper_bound. lia. Qed.

(** *** Initialization *)

Lemma init_categories_lookup cfg shown st cat :
  categories (init cfg shown st) !! cat
  = (λ base, build_pool base (additions_of st !! cat) (exclusions_of st !! cat))
      <$> baseCategories (init cfg shown st) !! cat.
Proof.
  unfold init; simpl. unfold build_categories. rewrite map_lookup_imap.
  by destruct (list_to_map _ !! cat).
Qed.

(** C2. The pool that [init] computes for a category of the base
    configuration is [base ++ additions] with the labels of the stored
    exclusions filtered out: it is the pool of the design, a subsequence
    of [base ++ additions] holding exactly the labels that are not
    excluded; it is empty when base and additions are empty, and
    exclusions that name no label of [base ++ additions] change nothing. *)
Theorem init_pool_is_derived_pool
    (cfg : SpinnerConfig) (shown : string) (st : Store) (cat : string)
    (base : list string) :
  let s := init cfg shown st in
  let added := or_empty (additions_of st !! cat) in
  let excluded := or_empty (exclusions_of st !! cat) in
  baseCategories s !! cat = Some base →
  ∃ p, categories s !! cat = Some p
    ∧ p = derive_pool base added (list_to_set excluded)
    ∧ p = filter (λ label, label ∉ excluded) (base ++ added)
    ∧ p `sublist_of` base ++ added
    ∧ (∀ x, x ∈ p ↔ x ∈ base ++ added ∧ x ∉ excluded)
    ∧ (base = [] → added = [] → p = [])
    ∧ ((∀ x, x ∈ excluded → x ∉ base ++ added) → p = base ++ added).
Proof.
  intros s added excluded Hbase. subst s.
  exists (build_pool base (additions_of st !! cat) (exclusions_of st !! cat)).
  split; [by rewrite init_categories_lookup, Hbase|].
  split; [apply build_pool_derive|].
  assert (build_pool base (additions_of st !! cat) (exclusions_of st !! cat)
          = filter (λ label, label ∉ excluded) (base ++ added)) as ->
    by apply js_filter_not_included.
  split; [reflexivity|].
  split; [apply sublist_filter|].
  split; [intros x; rewrite list_elem_of_filter; tauto|].
  split.
  - by intros -> ->.
  - intros Hfresh. apply filter_keeps_all. intros x Hx Hex.
    by apply (Hfresh x Hex).
Qed.

Lemma init_pool_is_derived_pool_witness :
  baseCategories demo.loaded !! demo.students = Some ["Ari"; "Leah"; "Noam"]%string
  ∧ categories demo.loaded !! demo.students = Some ["Ari"; "Leah"]%string.
Proof.
  split; [reflexivity|].
  destruct (init_pool_is_derived_pool demo.config "" demo.noam_excluded demo.students
              ["Ari"; "Leah"; "Noam"]%string eq_refl)
    as (p & Hp & _ & Hfilter & _).
  unfold demo.loaded. rewrite Hp, Hfilter. reflexivity.
Defined.

(** *** Spin *)

Lemma lookup_Some_length_nonzero (arr : list string) (i : nat) (x : string) :
  arr !! i = Some x → length arr ≠ 0.
Proof. intros H%lookup_lt_Some. lia. Qed.

(** Runs [spin] on a pool known to hold [item] at the index drawn, and
    leaves the properties of the state it returns to be shown. *)
Ltac spin_picks Hpool Hindex Hitem Hexcl :=
  unfold spin; rewrite Hpool; cbn [or_empty];
  rewrite decide_False by (by eapply lookup_Some_length_nonzero);
  rewrite Hindex, Hitem, Hexcl; eexists; split; [reflexivity|].

(** The index that [spin] draws is inside the pool, so its picked item is
    never undefined. *)
Lemma spin_draw_in_pool (r : nat) (arr : list string) :
  length arr ≠ 0 → is_Some (arr !! random_index r (length arr)).
Proof.
  intros Hlen. apply lookup_lt_is_Some, random_index_lt. lia.
Qed.

(** C1. With exclude-on-pick set, a spin that picks index [i] of a pool of
    size N takes out exactly the element at [i] (N - 1 elements left, the
    others in their order), appends the picked label to the stored
    exclusions of the active category and appends that label, once, at
    the end of the category's history, in memory and in the store. *)
Theorem spin_excluding_removes_and_records
    (s : State) (r i : nat) (pool0 : list string) (item : string) :
  categories s !! key s = Some pool0 →
  random_index r (length pool0) = i →
  pool0 !! i = Some item →
  excludePicked s = true →
  ∃ s', spin r s = Returned s'
    ∧ categories s' = <[key s := take i pool0 ++ drop (S i) pool0]> (categories s)
    ∧ pool s' = delete i pool0
    ∧ length (pool s') = length pool0 - 1
    ∧ (∀ k, k < i → pool s' !! k = pool0 !! k)
    ∧ (∀ k, i ≤ k → pool s' !! k = pool0 !! S k)
    ∧ exclusions_of (localStorage s')
      = <[key s := or_empty (exclusions_of (localStorage s) !! key s) ++ [item]]>
          (exclusions_of (localStorage s))
    ∧ history s'
      = <[key s := or_empty (history s !! key s) ++ [item]]> (history s)
    ∧ history_of (localStorage s') = history s'
    ∧ currentCategory s' = currentCategory s
    ∧ baseCategories s' = baseCategories s
    ∧ additions s' = additions s.
Proof.
  intros Hpool Hindex Hitem Hexcl. spin_picks Hpool Hindex Hitem Hexcl.
  unfold pool, key; simpl. fold (key s).
  rewrite lookup_insert_eq; simpl. rewrite splice1_delete.
  repeat split.
  - by rewrite delete_take_drop.
  - rewrite length_delete by eauto. reflexivity.
  - intros k Hk. by apply list_lookup_delete_lt.
  - intros k Hk. by apply list_lookup_delete_ge.
Qed.

Lemma spin_excluding_removes_and_records_witness :
  categories demo.excluding !! key demo.excluding = Some ["Ari"; "Leah"]%string
  ∧ ∃ s', spin 1 demo.excluding = Returned s'
      ∧ pool s' = ["Ari"%string]
      ∧ exclusions_of (localStorage s') !! demo.students = Some ["Noam"; "Leah"]%string
      ∧ history s' !! demo.students = Some ["Leah"%string].
Proof.
  split; [reflexivity|].
  destruct (spin_excluding_removes_and_records demo.excluding 1 1
              ["Ari"; "Leah"]%string "Leah" eq_refl eq_refl eq_refl eq_refl)
    as (s' & Hspin & _ & Hpool & _ & _ & _ & Hexcl & Hhist & _).
  exists s'. split; [exact Hspin|]. rewrite Hpool, Hexcl, Hhist.
  repeat split; reflexivity.
Defined.

(** C4. Without exclude-on-pick, a spin on a pool of size N leaves every
    pool as it is (same elements, order and length) and the stored
    exclusions as they are, and appends the picked label, once, to the
    history of the active category. *)
Theorem spin_keeping_only_records
    (s : State) (r i : nat) (pool0 : list string) (item : string) :
  categories s !! key s = Some pool0 →
  random_index r (length pool0) = i →
  pool0 !! i = Some item →
  excludePicked s = false →
  ∃ s', spin r s = Returned s'
    ∧ categories s' = categories s
    ∧ pool s' = pool0
    ∧ length (pool s') = length pool0
    ∧ spinner_exclusions (localStorage s') = spinner_exclusions (localStorage s)
    ∧ history s'
      = <[key s := or_empty (history s !! key s) ++ [item]]> (history s)
    ∧ history_of (localStorage s') = history s'
    ∧ currentCategory s' = currentCategory s
    ∧ baseCategories s' = baseCategories s
    ∧ additions s' = additions s.
Proof.
  intros Hpool Hindex Hitem Hexcl. spin_picks Hpool Hindex Hitem Hexcl.
  unfold pool, key; simpl. fold (key s). rewrite Hpool.
  repeat split.
Qed.

Lemma spin_keeping_only_records_witness :
  categories demo.loaded !! key demo.loaded = Some ["Ari"; "Leah"]%string
  ∧ ∃ s', spin 0 demo.loaded = Returned s'
      ∧ pool s' = ["Ari"; "Leah"]%string
      ∧ history s' !! demo.students = Some ["Ari"%string].
Proof.
  split; [reflexivity|].
  destruct (spin_keeping_only_records demo.loaded 0 0
              ["Ari"; "Leah"]%string "Ari" eq_refl eq_refl eq_refl eq_refl)
    as (s' & Hspin & _ & Hpool & _ & _ & Hhist & _).
  exists s'. split; [exact Hspin|]. rewrite Hpool, Hhist.
  repeat split; reflexivity.
Defined.

(** C5. A spin on an empty effective pool returns without an exception:
    the display reads "No items available" and the pools, the history and
    everything in the store, the exclusions among it, are as before,
    whatever the exclude-on-pick setting. *)
Theorem spin_on_empty_pool (s : State) (r : nat) :
  pool s = [] →
  ∃ s', spin r s = Returned s'
    ∧ resultDisplay s' = "No items available"%string
    ∧ categories s' = categories s
    ∧ history s' = history s
    ∧ localStorage s' = localStorage s
    ∧ additions s' = additions s
    ∧ baseCategories s' = baseCategories s
    ∧ currentCategory s' = currentCategory s
    ∧ excludePicked s' = excludePicked s.
Proof.
  intros Hempty. unfold spin. fold (pool s). rewrite Hempty; simpl.
  eexists; split; [reflexivity|]. repeat split.
Qed.

Lemma spin_on_empty_pool_witness :
  pool demo.exhausted = []
  ∧ ∃ s', spin 7 demo.exhausted = Returned s'
      ∧ resultDisplay s' = "No items available"%string
      ∧ history s' = history demo.exhausted.
Proof.
  split; [reflexivity|].
  destruct (spin_on_empty_pool demo.exhausted 7 eq_refl)
    as (s' & Hspin & Hshown & _ & Hhist & _).
  exists s'. by repeat split.
Defined.

(** *** Shuffle *)

(** The transposition of the positions [i] and [j]. *)
Definition transpose (i j k : nat) : nat :=
  if decide (k = i) then j else if decide (k = j) then i else k.

Lemma transpose_involutive (i j k : nat) : transpose i j (transpose i j k) = k.
Proof. unfold transpose. repeat case_decide; congruence. Qed.

Lemma transpose_inj (i j : nat) : Inj (=) (=) (transpose i j).
Proof.
  intros a b Hab. rewrite <- (transpose_involutive i j a), Hab.
  apply transpose_involutive.
Qed.

Lemma swap_length (i j : nat) (arr : list string) :
  length (swap i j arr) = length arr.
Proof.
  unfold swap. destruct (arr !! i), (arr !! j); try reflexivity.
  by rewrite !length_insert.
Qed.

Lemma swap_lookup (i j k : nat) (arr : list string) :
  is_Some (arr !! i) → is_Some (arr !! j) →
  swap i j arr !! k = arr !! transpose i j k.
Proof.
  intros [ai Hi] [aj Hj]. unfold swap, transpose. rewrite Hi, Hj.
  destruct (decide (k = j)) as [->|Hkj].
  - rewrite list_lookup_insert_eq
      by (rewrite length_insert; by eapply lookup_lt_Some).
    case_decide; congruence.
  - rewrite list_lookup_insert_ne by congruence.
    destruct (decide (k = i)) as [->|Hki].
    + rewrite list_lookup_insert_eq by (by eapply lookup_lt_Some). congruence.
    + by rewrite list_lookup_insert_ne by congruence.
Qed.

Lemma swap_Permutation (i j : nat) (arr : list string) : swap i j arr ≡ₚ arr.
Proof.
  destruct (arr !! i) as [ai|] eqn:Hi; [destruct (arr !! j) as [aj|] eqn:Hj|].
  - apply Permutation_inj. split; [apply swap_length|].
    exists (transpose i j). split; [apply transpose_inj|].
    intros k. apply swap_lookup; eauto.
  - unfold swap. by rewrite Hi, Hj.
  - unfold swap. by rewrite Hi.
Qed.

Lemma swap_same (i : nat) (arr : list string) : swap i i arr = arr.
Proof.
  unfold swap. destruct (arr !! i) as [ai|] eqn:Hi; [|reflexivity].
  rewrite (list_insert_id arr i ai Hi). by apply list_insert_id.
Qed.

Lemma shuffle_loop_Permutation (rnd : nat → nat) (i : nat) (arr : list string) :
  shuffle_loop rnd i arr ≡ₚ arr.
Proof.
  revert arr. induction i as [|i IH]; intros arr; simpl; [reflexivity|].
  rewrite IH. apply swap_Permutation.
Qed.

(** Every swap of the loop is between two positions of the array. *)
Lemma shuffle_loop_in_range (r i : nat) (arr : list string) :
  i < length arr →
  is_Some (arr !! i) ∧ is_Some (arr !! random_index r (i + 1)).
Proof.
  intros Hi. split; apply lookup_lt_is_Some; [exact Hi|].
  pose proof (random_index_lt r (i + 1)). lia.
Qed.

(** C6. [shuffle] returns with the live pool a permutation of what it
    was: the same labels with the same counts, the same length.  History,
    store (exclusions among it), additions and the other pools are not
    touched, and a pool of at most one element stays as it is. *)
Theorem shuffle_permutes_pool (rnd : nat → nat) (s : State) :
  ∃ s', shuffle rnd s = Returned s'
    ∧ pool s' ≡ₚ pool s
    ∧ (∀ label, length (filter (λ x, x = label) (pool s'))
                = length (filter (λ x, x = label) (pool s)))
    ∧ length (pool s') = length (pool s)
    ∧ history s' = history s
    ∧ localStorage s' = localStorage s
    ∧ additions s' = additions s
    ∧ baseCategories s' = baseCategories s
    ∧ currentCategory s' = currentCategory s
    ∧ (∀ cat, cat ≠ key s → categories s' !! cat = categories s !! cat)
    ∧ (length (pool s) ≤ 1 → categories s' = categories s).
Proof.
  unfold shuffle. eexists; split; [reflexivity|].
  assert (pool (with_resultDisplay "Shuffled!"
            match categories s !! key s with
            | Some pool0 =>
                with_categories
                  (<[key s := shuffle_loop rnd (length pool0 - 1) pool0]> (categories s)) s
            | None => s
            end) ≡ₚ pool s) as Hperm.
  { unfold pool, key; simpl. fold (key s).
    destruct (categories s !! key s) as [pool0|] eqn:Hpool; simpl.
    - fold (key s). rewrite lookup_insert_eq; simpl. apply shuffle_loop_Permutation.
    - fold (key s). by rewrite Hpool. }
  split; [exact Hperm|].
  split; [intros label; by rewrite Hperm|].
  split; [by rewrite Hperm|].
  unfold pool.
  destruct (categories s !! key s) as [pool0|] eqn:Hpool; simpl;
    repeat split; try done.
  - intros cat Hcat. by rewrite lookup_insert_ne.
  - intros Hlen. apply insert_id. rewrite Hpool. f_equal.
    destruct pool0 as [|x [|y rest]]; simpl in *; [reflexivity..|lia].
Qed.

Lemma shuffle_permutes_pool_witness :
  ∃ s', shuffle (λ _, 0) demo.loaded = Returned s'
    ∧ pool s' = ["Leah"; "Ari"]%string
    ∧ pool s' ≡ₚ pool demo.loaded.
Proof.
  destruct (shuffle_permutes_pool (λ _, 0) demo.loaded) as (s' & Hshuffle & Hperm & _).
  exists s'. split; [exact Hshuffle|]. split; [|exact Hperm].
  unfold shuffle in Hshuffle. injection Hshuffle as <-. reflexivity.
Defined.

(** *** Reset *)

(** C3. [reset] on an active category C of the base configuration makes
    C's pool [base(C) ++ additions(C)], the additions kept as they are,
    deletes C's entry of the stored exclusions and of the history (in
    memory and in the store), and leaves the pool, additions, exclusions
    and history of every other category as they were. *)
Theorem reset_restores_active_category (s : State) (base : list string) :
  baseCategories s !! key s = Some base →
  ∃ s', reset s = Returned s'
    ∧ categories s' = <[key s := base ++ or_empty (additions s !! key s)]> (categories s)
    ∧ pool s' = base ++ or_empty (additions s !! key s)
    ∧ additions s' = additions s
    ∧ spinner_additions (localStorage s') = spinner_additions (localStorage s)
    ∧ baseCategories s' = baseCategories s
    ∧ currentCategory s' = currentCategory s
    ∧ exclusions_of (localStorage s') = delete (key s) (exclusions_of (localStorage s))
    ∧ history s' = delete (key s) (history s)
    ∧ history_of (localStorage s') = history s'
    ∧ (∀ other, other ≠ key s →
         categories s' !! other = categories s !! other
         ∧ additions s' !! other = additions s !! other
         ∧ exclusions_of (localStorage s') !! other
           = exclusions_of (localStorage s) !! other
         ∧ history s' !! other = history s !! other).
Proof.
  intros Hbase. unfold reset; simpl. rewrite Hbase.
  eexists; split; [reflexivity|].
  unfold pool, key; simpl. fold (key s). rewrite lookup_insert_eq; simpl.
  repeat split.
  - by rewrite lookup_insert_ne.
  - unfold exclusions_of; simpl. by rewrite lookup_delete_ne.
  - by rewrite lookup_delete_ne.
Qed.

Lemma reset_restores_active_category_witness :
  baseCategories demo.loaded !! key demo.loaded = Some ["Ari"; "Leah"; "Noam"]%string
  ∧ ∃ s', reset demo.loaded = Returned s'
      ∧ pool s' = ["Ari"; "Leah"; "Noam"]%string
      ∧ exclusions_of (localStorage s') !! demo.students = None.
Proof.
  split; [reflexivity|].
  destruct (reset_restores_active_category demo.loaded
              ["Ari"; "Leah"; "Noam"]%string eq_refl)
    as (s' & Hreset & _ & Hpool & _ & _ & _ & _ & Hexcl & _).
  exists s'. split; [exact Hreset|]. rewrite Hpool, Hexcl.
  split; reflexivity.
Defined.

(** *** Add item *)

(** C7. When the trimmed input is empty [addNewItem] changes nothing;
    otherwise it appends the trimmed label to the additions of the active
    category, in memory and in the store, and to the end of the live pool,
    whether or not the pool already holds that label. *)
Theorem addNewItem_appends_trimmed_label
    (trim : string → string) (input : string) (s : State) :
  (trim input = ""%string → addNewItem trim input s = Returned s)
  ∧ (trim input ≠ ""%string →
     ∃ s', addNewItem trim input s = Returned s'
       ∧ additions s'
         = <[key s := or_empty (additions s !! key s) ++ [trim input]]> (additions s)
       ∧ additions_of (localStorage s') = additions s'
       ∧ categories s' = <[key s := pool s ++ [trim input]]> (categories s)
       ∧ pool s' = pool s ++ [trim input]
       ∧ length (pool s') = S (length (pool s))
       ∧ history s' = history s
       ∧ spinner_exclusions (localStorage s') = spinner_exclusions (localStorage s)
       ∧ spinner_history (localStorage s') = spinner_history (localStorage s)
       ∧ baseCategories s' = baseCategories s
       ∧ currentCategory s' = currentCategory s).
Proof.
  unfold addNewItem. split.
  - intros ->. reflexivity.
  - intros Hlabel. rewrite decide_False by exact Hlabel.
    eexists; split; [reflexivity|].
    unfold pool, key; simpl. fold (key s). rewrite lookup_insert_eq; simpl.
    repeat split. rewrite length_app; simpl. lia.
Qed.

Lemma addNewItem_appends_trimmed_label_witness :
  trim_ascii "   " = ""%string
  ∧ addNewItem trim_ascii "   " demo.loaded = Returned demo.loaded
  ∧ trim_ascii " Ari " ≠ ""%string
  ∧ ∃ s', addNewItem trim_ascii " Ari " demo.loaded = Returned s'
      ∧ pool s' = ["Ari"; "Leah"; "Ari"]%string
      ∧ additions s' !! demo.students = Some ["Ari"%string].
Proof.
  destruct (addNewItem_appends_trimmed_label trim_ascii "   " demo.loaded)
    as [Hblank _].
  destruct (addNewItem_appends_trimmed_label trim_ascii " Ari " demo.loaded)
    as [_ Hlabel].
  split; [reflexivity|]. split; [exact (Hblank eq_refl)|].
  assert (trim_ascii " Ari " ≠ ""%string) as Hne by discriminate.
  split; [exact Hne|].
  destruct (Hlabel Hne) as (s' & Hadd & Hadditions & _ & _ & Hpool & _).
  exists s'. split; [exact Hadd|]. rewrite Hpool, Hadditions.
  split; reflexivity.
Defined.

(** The design's example: "Dana" added to the pool [["Ari","Leah"]]. *)
Example addNewItem_Dana :
  ∃ s', addNewItem trim_ascii "Dana" demo.loaded = Returned s'
    ∧ additions s' !! demo.students = Some ["Dana"%string]
    ∧ pool s' = ["Ari"; "Leah"; "Dana"]%string.
Proof. eexists. repeat split. Qed.

(** *** Export *)

Lemma spin_keeps_configuration (r : nat) (s s' : State) :
  spin r s = Returned s' →
  baseCategories s' = baseCategories s ∧ additions s' = additions s.
Proof.
  unfold spin. case_decide; [by intros [= <-]|].
  destruct (or_empty (categories s !! key s) !! _); [|by intros [= <-]].
  destruct (excludePicked s); by intros [= <-].
Qed.

Lemma shuffle_keeps_configuration (rnd : nat → nat) (s s' : State) :
  shuffle rnd s = Returned s' →
  baseCategories s' = baseCategories s ∧ additions s' = additions s.
Proof.
  unfold shuffle. intros [= <-]. by destruct (categories s !! key s).
Qed.

(** C8. The export holds, for every category of the base configuration
    and for no other, [base ++ additions] in that order.  It is a function
    of the base configuration and the additions alone: pools, exclusions
    and history do not enter it, a spin or a shuffle leaves it as it is,
    and every label of [base ++ additions] is in it, excluded or not. *)
Theorem export_is_base_plus_additions (s : State) :
  (∀ cat, getExportCategories s !! cat
          = (λ base, base ++ or_empty (additions s !! cat)) <$> baseCategories s !! cat)
  ∧ dom (getExportCategories s) = dom (baseCategories s)
  ∧ (∀ s2, baseCategories s2 = baseCategories s → additions s2 = additions s →
           getExportCategories s2 = getExportCategories s)
  ∧ (∀ r s', spin r s = Returned s' → getExportCategories s' = getExportCategories s)
  ∧ (∀ rnd s', shuffle rnd s = Returned s' →
               getExportCategories s' = getExportCategories s)
  ∧ (∀ cat base label,
       baseCategories s !! cat = Some base →
       label ∈ base ++ or_empty (additions s !! cat) →
       label ∈ or_empty (exclusions_of (localStorage s) !! cat) →
       ∃ out, getExportCategories s !! cat = Some out ∧ label ∈ out).
Proof.
  assert (∀ cat, getExportCategories s !! cat
                 = (λ base, base ++ or_empty (additions s !! cat))
                     <$> baseCategories s !! cat) as Hlookup.
  { intros cat. unfold getExportCategories. rewrite map_lookup_imap.
    by destruct (baseCategories s !! cat). }
  split; [exact Hlookup|].
  split.
  { apply set_eq. intros cat. rewrite !elem_of_dom, Hlookup.
    by rewrite fmap_is_Some. }
  split; [intros s2 Hb Ha; unfold getExportCategories; by rewrite Hb, Ha|].
  split.
  { intros r s' [Hb Ha]%spin_keeps_configuration.
    unfold getExportCategories. by rewrite Hb, Ha. }
  split.
  { intros rnd s' [Hb Ha]%shuffle_keeps_configuration.
    unfold getExportCategories. by rewrite Hb, Ha. }
  intros cat base label Hbase Hin _. eexists. rewrite Hlookup, Hbase. eauto.
Qed.

Lemma export_is_base_plus_additions_witness :
  getExportCategories demo.loaded !! demo.students = Some ["Ari"; "Leah"; "Noam"]%string
  ∧ ∃ out, getExportCategories demo.loaded !! demo.students = Some out
           ∧ "Noam"%string ∈ out.
Proof.
  destruct (export_is_base_plus_additions demo.loaded) as (Hlookup & _ & _ & _ & _ & Hin).
  split; [by rewrite Hlookup|].
  apply (Hin demo.students ["Ari"; "Leah"; "Noam"]%string "Noam"%string eq_refl).
  - apply elem_of_app. left. rewrite !elem_of_cons. tauto.
  - change ("Noam"%string ∈ ["Noam"%string]). apply elem_of_cons. by left.
Defined.

(** *** What [init] reads from the store *)

(** The pools of [init] depend on the store only through the additions of
    the configured categories and the set of labels excluded for them;
    entries under other names are not read. *)
Lemma init_categories_ext cfg shown1 shown2 (st1 st2 : Store) :
  (∀ cat, is_Some (baseCategories (init cfg shown1 st1) !! cat) →
     or_empty (additions_of st1 !! cat) = or_empty (additions_of st2 !! cat)
     ∧ ∀ x, x ∈ or_empty (exclusions_of st1 !! cat)
            ↔ x ∈ or_empty (exclusions_of st2 !! cat)) →
  categories (init cfg shown1 st1) = categories (init cfg shown2 st2).
Proof.
  intros Hsame. apply map_eq. intros cat.
  rewrite !init_categories_lookup.
  change (baseCategories (init cfg shown2 st2)) with (baseCategories (init cfg shown1 st1)).
  destruct (baseCategories (init cfg shown1 st1) !! cat) as [base|] eqn:Hbase;
    [|reflexivity].
  simpl. f_equal. destruct (Hsame cat) as [Hadd Hexcl]; [by rewrite Hbase|].
  rewrite !build_pool_derive, Hadd. unfold derive_pool.
  apply list_filter_iff. intros x. by rewrite !elem_of_list_to_set, Hexcl.
Qed.

Lemma init_categories_dom cfg shown st :
  dom (categories (init cfg shown st)) = dom (baseCategories (init cfg shown st)).
Proof.
  apply set_eq. intros cat. rewrite !elem_of_dom, init_categories_lookup.
  by rewrite fmap_is_Some.
Qed.

(** C10. With exclude-on-pick set, picking a label that the stored
    exclusions of the active category already hold appends it again: the
    stored sequence then holds the label more than once.  The pools that
    the next [init] builds from that store are those it would build had
    the label not been appended, and those it would build from the
    exclusions with every repetition removed. *)
Theorem repeated_exclusion_is_stored_and_harmless
    (s : State) (r i : nat) (pool0 excl0 : list string) (item : string) :
  categories s !! key s = Some pool0 →
  random_index r (length pool0) = i →
  pool0 !! i = Some item →
  excludePicked s = true →
  exclusions_of (localStorage s) !! key s = Some excl0 →
  item ∈ excl0 →
  ∃ s', spin r s = Returned s'
    ∧ exclusions_of (localStorage s') !! key s = Some (excl0 ++ [item])
    ∧ length (filter (λ x, x = item) (excl0 ++ [item]))
      = S (length (filter (λ x, x = item) excl0))
    ∧ 2 ≤ length (filter (λ x, x = item) (excl0 ++ [item]))
    ∧ ¬ NoDup (excl0 ++ [item])
    ∧ ∀ cfg shown,
        categories (init cfg shown (localStorage s'))
        = categories (init cfg shown
                        (set_exclusions (exclusions_of (localStorage s)) (localStorage s')))
        ∧ categories (init cfg shown (localStorage s'))
          = categories (init cfg shown
                          (set_exclusions (remove_dups <$> exclusions_of (localStorage s'))
                             (localStorage s'))).
Proof.
  intros Hpool Hindex Hitem Hexcl Hstored Hin.
  spin_picks Hpool Hindex Hitem Hexcl.
  assert (length (filter (λ x, x = item) (excl0 ++ [item]))
          = S (length (filter (λ x, x = item) excl0))) as Hcount.
  { rewrite filter_app, length_app, filter_cons_True by reflexivity. simpl. lia. }
  split.
  { unfold exclusions_of in *; simpl. by rewrite Hstored, lookup_insert_eq. }
  split; [exact Hcount|].
  split.
  { rewrite Hcount. apply le_n_S.
    destruct (filter (λ x, x = item) excl0) eqn:Hnone; simpl; [|lia].
    exfalso. by apply (filter_nil_not_elem_of (λ x, x = item) excl0 item). }
  split.
  { rewrite NoDup_app. intros (_ & Hfresh & _). apply (Hfresh item Hin).
    apply list_elem_of_singleton. reflexivity. }
  intros cfg shown. split; apply init_categories_ext; intros cat _;
    (split; [reflexivity|]); intros x; unfold exclusions_of in *; simpl.
  - destruct (decide (cat = key s)) as [->|Hother].
    + rewrite lookup_insert_eq, Hstored; simpl.
      rewrite elem_of_app, list_elem_of_singleton.
      split; [intros [H| ->]; assumption | by left].
    + by rewrite lookup_insert_ne.
  - rewrite lookup_fmap.
    destruct (<[key s := _]> _ !! cat); simpl; [|reflexivity].
    by rewrite elem_of_remove_dups.
Qed.

Lemma repeated_exclusion_is_stored_and_harmless_witness :
  categories demo.twins_after_one_pick !! key demo.twins_after_one_pick
  = Some ["Ari"%string]
  ∧ exclusions_of (localStorage demo.twins_after_one_pick) !! demo.students
    = Some ["Ari"%string]
  ∧ ∃ s', spin 0 demo.twins_after_one_pick = Returned s'
      ∧ exclusions_of (localStorage s') !! demo.students = Some ["Ari"; "Ari"]%string.
Proof.
  split; [reflexivity|]. split; [reflexivity|].
  assert ("Ari"%string ∈ ["Ari"%string]) as Hin by (apply elem_of_cons; by left).
  destruct (repeated_exclusion_is_stored_and_harmless demo.twins_after_one_pick 0 0
              ["Ari"%string] ["Ari"%string] "Ari" eq_refl eq_refl eq_refl eq_refl
              eq_refl Hin)
    as (s' & Hspin & Hstored & _).
  exists s'. split; [exact Hspin | exact Hstored].
Defined.

(** *** Stored references to categories that are not configured *)

(** The active category names a category of the base configuration. *)
Definition active_is_configured (s : State) : Prop :=
  ∃ c, currentCategory s = Some c ∧ is_Some (baseCategories s !! c).

Lemma init_active_is_configured cfg shown st :
  get (cfg_categories cfg) [] ≠ [] → active_is_configured (init cfg shown st).
Proof.
  intros Hentries. unfold active_is_configured.
  destruct (get (cfg_categories cfg) []) as [|[k v] rest] eqn:Hcfg; [done|].
  assert (is_Some (baseCategories (init cfg shown st) !! k)) as Hk.
  { unfold init; simpl. rewrite Hcfg; simpl. rewrite lookup_insert_eq. eauto. }
  assert (∀ c, is_Some (categories (init cfg shown st) !! c) →
               is_Some (baseCategories (init cfg shown st) !! c)) as Hcats.
  { intros c. by rewrite init_categories_lookup, fmap_is_Some. }
  revert Hk Hcats. unfold init; simpl. rewrite Hcfg; simpl. intros Hk Hcats.
  unfold populateCategorySelect; simpl.
  destruct (spinner_activeCategory st) as [c|]; simpl.
  - destruct (build_categories _ _ _ !! c) eqn:Hc; [|eauto].
    exists c. split; [reflexivity|]. apply Hcats. by rewrite Hc.
  - destruct (build_categories _ _ _ !! k) eqn:Hc; eauto.
Qed.

Lemma handle_keeps_active_configured trim e s s' :
  active_is_configured s → offered e s → handle trim e s = Returned s' →
  active_is_configured s'.
Proof.
  intros (c & Hcur & Hbase) Hoffered. unfold active_is_configured.
  destruct e; simpl in *.
  - unfold spin. case_decide; [intros [= <-]; eauto|].
    destruct (or_empty (categories s !! key s) !! _); [|intros [= <-]; eauto].
    destruct (excludePicked s); intros [= <-]; simpl; eauto.
  - unfold shuffle. intros [= <-].
    destruct (categories s !! key s); simpl; eauto.
  - unfold reset; simpl. destruct (baseCategories s !! key s); [|discriminate].
    intros [= <-]; simpl; eauto.
  - unfold addNewItem. case_decide; intros [= <-]; simpl; eauto.
  - intros [= <-]; simpl; eauto.
  - intros [= <-]; simpl; eauto.
  - intros [= <-]; simpl; eauto.
  - intros [= <-]; simpl; eauto.
Qed.

Lemma reachable_active_configured trim cfg shown st s :
  get (cfg_categories cfg) [] ≠ [] →
  reachable trim cfg shown st s → active_is_configured s.
Proof.
  intros Hentries Hreach. induction Hreach as [|s e s' _ IH Hoffered Hstep].
  - by apply init_active_is_configured.
  - by eapply handle_keeps_active_configured.
Qed.

(** With at least one category configured no handler throws, whatever the
    store held when the page was loaded. *)
Lemma configured_engine_never_throws trim cfg shown st s e :
  get (cfg_categories cfg) [] ≠ [] →
  reachable trim cfg shown st s →
  ∃ s', handle trim e s = Returned s'.
Proof.
  intros Hentries Hreach.
  destruct (reachable_active_configured _ _ _ _ _ Hentries Hreach)
    as (c & Hcur & [base Hbase]).
  destruct e; simpl; try (eexists; reflexivity).
  - unfold spin. case_decide; [eauto|].
    destruct (or_empty (categories s !! key s) !! _); eauto.
  - unfold reset, key; simpl. rewrite Hcur, Hbase. eauto.
  - unfold addNewItem. case_decide; eauto.
Qed.

(** A stored active category that is not configured gives way to the
    first configured one. *)
Lemma init_orphaned_active_category cfg shown st first base rest saved :
  get (cfg_categories cfg) [] = (first, base) :: rest →
  spinner_activeCategory st = Some saved →
  baseCategories (init cfg shown st) !! saved = None →
  currentCategory (init cfg shown st) = Some first.
Proof.
  intros Hcfg Hsaved Hnone.
  assert (categories (init cfg shown st) !! saved = None) as Hcat
    by (by rewrite init_categories_lookup, Hnone).
  revert Hcat. unfold init; simpl. rewrite Hcfg; simpl.
  unfold populateCategorySelect; simpl. rewrite Hsaved; simpl.
  by intros ->.
Qed.

(** Entries that the store holds under names that are not configured give
    no pool and change no pool. *)
Lemma init_ignores_orphans cfg shown (st1 st2 : Store) :
  (∀ cat, is_Some (baseCategories (init cfg shown st1) !! cat) →
          additions_of st1 !! cat = additions_of st2 !! cat
          ∧ exclusions_of st1 !! cat = exclusions_of st2 !! cat) →
  categories (init cfg shown st1) = categories (init cfg shown st2)
  ∧ dom (categories (init cfg shown st1)) = dom (baseCategories (init cfg shown st1)).
Proof.
  intros Hsame. split; [|apply init_categories_dom].
  apply init_categories_ext. intros cat Hcat.
  destruct (Hsame cat Hcat) as [-> ->]. done.
Qed.

(** Without a configured category [init] leaves the active category
    undefined, and [reset] then throws. *)
Lemma reset_without_base_category (s : State) :
  baseCategories s !! key s = None → ∃ error s', reset s = Threw error s'.
Proof. intros Hnone. unfold reset; simpl. rewrite Hnone. eauto. Qed.


(** C9, at the input on which it fails.  The configuration has an empty
    [categories] mapping and the store still names the category "Old" in
    its additions, exclusions, history and active category.  [init]
    returns with the active category undefined and no pool; [spin],
    [shuffle], [addNewItem] and [clearHistory] return; [reset] throws. *)
Theorem reset_throws_when_no_category_is_configured :
  let s := init demo.no_categories "" demo.orphaned in
  currentCategory s = None
  ∧ categories s = ∅
  ∧ (∃ s', spin 0 s = Returned s' ∧ resultDisplay s' = "No items available"%string)
  ∧ (∃ s', shuffle (λ _, 0) s = Returned s')
  ∧ (∃ s', addNewItem trim_ascii "Dana" s = Returned s')
  ∧ (∃ s', clearHistory s = Returned s')
  ∧ ∃ s', reset s
          = Threw "TypeError: baseCategories[currentCategory] is not iterable" s'.
Proof.
  simpl. repeat split; try reflexivity; eexists; try split; reflexivity.
Qed.

End props.

(** ** Laws of the store adapter and of whole sessions *)
Module laws.

Import storage spinner design session props.

(** *** storage.js *)

Lemma prefixed_inj (key key' : string) :
  local_storage.PREFIX +:+ key = local_storage.PREFIX +:+ key' → key = key'.
Proof. unfold local_storage.PREFIX. intros Heq. by simplify_eq/=. Qed.

(** X1. What [set] stores, [get] reads back: when the browser takes the
    write and the text of the value parses back to the value, [get] on the
    same key gives the value and not the default. *)
Theorem get_after_set {V : Type} (stringify : V → string) (parse : string → option V)
    (accepts : local_storage.items → string → string → bool)
    (ls : local_storage.items) (key : string) (value defaultValue : V) :
  accepts ls (local_storage.PREFIX +:+ key) (stringify value) = true →
  parse (stringify value) = Some value →
  local_storage.get parse (local_storage.set stringify accepts ls key value) key defaultValue
  = value.
Proof.
  intros Haccepts Hparse. unfold local_storage.get, local_storage.set.
  rewrite Haccepts, lookup_insert_eq, Hparse. reflexivity.
Qed.

Lemma get_after_set_witness :
  local_storage.get local_storage.parse_bool
    (local_storage.set local_storage.stringify_bool local_storage.roomy ∅
       "spinner.settings.excludePicked" true)
    "spinner.settings.excludePicked" false
  = true.
Proof.
  apply (get_after_set local_storage.stringify_bool local_storage.parse_bool
           local_storage.roomy ∅ "spinner.settings.excludePicked" true false);
    reflexivity.
Defined.

(** X2. [set] and [remove] on one key leave what [get] reads under every
    other key as it was, whether or not the browser takes the write. *)
Theorem get_other_key {V : Type} (stringify : V → string) (parse : string → option V)
    (accepts : local_storage.items → string → string → bool)
    (ls : local_storage.items) (key other : string) (value defaultValue : V) :
  key ≠ other →
  local_storage.get parse (local_storage.set stringify accepts ls key value) other defaultValue
  = local_storage.get parse ls other defaultValue
  ∧ local_storage.get parse (local_storage.remove ls key) other defaultValue
    = local_storage.get parse ls other defaultValue.
Proof.
  intros Hother.
  assert (local_storage.PREFIX +:+ key ≠ local_storage.PREFIX +:+ other) as Hne
    by (intros Heq; by apply Hother, prefixed_inj).
  unfold local_storage.get, local_storage.set, local_storage.remove. split.
  - destruct (accepts ls _ _); [|reflexivity]. by rewrite lookup_insert_ne.
  - by rewrite lookup_delete_ne.
Qed.

Lemma get_other_key_witness :
  local_storage.get local_storage.parse_bool
    (local_storage.set local_storage.stringify_bool local_storage.roomy
       {[ "ramaz.settings.sound" := "true" ]} "settings.projector" false)
    "settings.sound" false
  = true.
Proof.
  destruct (get_other_key local_storage.stringify_bool local_storage.parse_bool
              local_storage.roomy {[ "ramaz.settings.sound" := "true" ]}
              "settings.projector" "settings.sound" false false) as [Hset _];
    [discriminate|].
  rewrite Hset. reflexivity.
Defined.

(** X3. After [remove], [get] on that key gives the default, whatever was
    stored; so does [get] on a key whose text does not parse. *)
Theorem get_after_remove {V : Type} (parse : string → option V)
    (ls : local_storage.items) (key raw : string) (defaultValue : V) :
  local_storage.get parse (local_storage.remove ls key) key defaultValue = defaultValue
  ∧ (ls !! (local_storage.PREFIX +:+ key) = Some raw → parse raw = None →
     local_storage.get parse ls key defaultValue = defaultValue).
Proof.
  unfold local_storage.get, local_storage.remove. split.
  - by rewrite lookup_delete_eq.
  - by intros -> ->.
Qed.

Lemma get_after_remove_witness :
  local_storage.get local_storage.parse_bool
    (local_storage.remove {[ "ramaz.settings.sound" := "true" ]} "settings.sound")
    "settings.sound" false = false
  ∧ local_storage.get local_storage.parse_bool
      {[ "ramaz.settings.sound" := "yes" ]} "settings.sound" false = false.
Proof.
  split.
  - apply (get_after_remove local_storage.parse_bool
             {[ "ramaz.settings.sound" := "true" ]} "settings.sound" "" false).
  - apply (get_after_remove local_storage.parse_bool
             {[ "ramaz.settings.sound" := "yes" ]} "settings.sound" "yes" false);
      reflexivity.
Defined.

(** *** What every handler keeps *)

(** Splits a step [handle trim e s = Returned s'] into the paths of the
    handlers that return, with [s'] replaced by the state of each path. *)
Ltac handler_paths e Hstep :=
  destruct e; cbn [handle] in Hstep;
  [ unfold spin in Hstep; case_decide;
    [| destruct (or_empty (categories _ !! key _) !! _) eqn:?;
       [destruct (excludePicked _) eqn:?|] ]
  | unfold shuffle in Hstep; destruct (categories _ !! key _) eqn:?
  | unfold reset in Hstep; cbn in Hstep;
    destruct (baseCategories _ !! key _) eqn:?; [|discriminate Hstep]
  | unfold addNewItem in Hstep; case_decide
  | unfold clearHistory in Hstep
  | unfold selectCategory in Hstep
  | unfold setExcludePicked in Hstep
  | unfold setShowHistory in Hstep ];
  injection Hstep as <-.

Lemma handle_keeps_base trim e s s' :
  handle trim e s = Returned s' → baseCategories s' = baseCategories s.
Proof. intros Hstep. handler_paths e Hstep; reflexivity. Qed.

(** The state in which [reset] is left by its exception. *)
Definition reset_interrupted (s : State) : State :=
  mkState (categories s) (baseCategories s) (additions s) (currentCategory s)
    (delete (key s) (history s)) (excludePicked s) (showHistory s) (resultDisplay s)
    (mkStore (spinner_additions (localStorage s))
       (Some (delete (key s) (exclusions_of (localStorage s))))
       (Some (delete (key s) (history s)))
       (spinner_settings_excludePicked (localStorage s))
       (spinner_settings_showHistory (localStorage s))
       (spinner_activeCategory (localStorage s))).

(** Only [reset] throws, and only without a base entry for the active
    category. *)
Lemma handle_threw trim e s error s' :
  handle trim e s = Threw error s' →
  baseCategories s !! key s = None ∧ s' = reset_interrupted s.
Proof.
  destruct e; cbn [handle]; try discriminate.
  - unfold spin. case_decide; [discriminate|].
    by destruct (or_empty (categories s !! key s) !! _).
  - unfold reset; cbn. destruct (baseCategories s !! key s); [discriminate|].
    by intros [= <- <-].
  - unfold addNewItem. by case_decide.
Qed.

(** How a property is shown of every state of a session. *)
Lemma visited_invariant trim cfg shown st (P : State → Prop) :
  P (init cfg shown st) →
  (∀ s e s', visited trim cfg shown st s → P s → offered e s →
             handle trim e s = Returned s' → P s') →
  (∀ s, visited trim cfg shown st s → P s → baseCategories s !! key s = None →
        P (reset_interrupted s)) →
  ∀ s, visited trim cfg shown st s → P s.
Proof.
  intros Hinit Hreturn Hthrow s Hvisited.
  induction Hvisited as [|s e Hvisited IH Hoffered]; [exact Hinit|].
  destruct (handle trim e s) as [s'|error s'] eqn:Hstep; cbn.
  - by eapply Hreturn.
  - destruct (handle_threw _ _ _ _ _ Hstep) as [Hnone ->]. by apply Hthrow.
Qed.

Lemma visited_returned trim cfg shown st s e s' :
  visited trim cfg shown st s → offered e s → handle trim e s = Returned s' →
  visited trim cfg shown st s'.
Proof.
  intros Hvisited Hoffered Hstep.
  change s' with (leaves (Returned s')). rewrite <- Hstep. by apply visited_step.
Qed.

Lemma visited_base trim cfg shown st s :
  visited trim cfg shown st s →
  baseCategories s = list_to_map (get (cfg_categories cfg) []).
Proof.
  apply (visited_invariant _ _ _ _
           (λ s, baseCategories s = list_to_map (get (cfg_categories cfg) []))).
  - reflexivity.
  - intros s0 e s' _ IH _ Hstep. by rewrite (handle_keeps_base _ _ _ _ Hstep).
  - intros s0 _ IH _. exact IH.
Qed.

(** *** The active category after [init] *)

Lemma init_pool_exists cfg shown st cat :
  is_Some (categories (init cfg shown st) !! cat)
  ↔ is_Some (baseCategories (init cfg shown st) !! cat).
Proof. by rewrite init_categories_lookup, fmap_is_Some. Qed.


Lemma init_current_category (cfg : SpinnerConfig) (shown : string) (st : Store) :
  currentCategory (init cfg shown st)
  = match spinner_activeCategory st with
    | Some saved =>
        if baseCategories (init cfg shown st) !! saved is Some _ then Some saved
        else head (get (cfg_categories cfg) []).*1
    | None => head (get (cfg_categories cfg) []).*1
    end.
Proof.
  pose proof (init_pool_exists cfg shown st) as Hpool.
  revert Hpool. unfold init; cbn. unfold populateCategorySelect.
  set (entries := get (cfg_categories cfg) []).
  set (cats := build_categories _ _ _). intros Hpool.
  destruct (spinner_activeCategory st) as [saved|]; cbn.
  - specialize (Hpool saved).
    destruct (cats !! saved), (list_to_map entries !! saved) eqn:Hb; try reflexivity.
    + destruct Hpool as [Hpool _]. destruct Hpool; eauto; discriminate.
    + destruct Hpool as [_ Hpool]. destruct Hpool; eauto; discriminate.
  - destruct (head entries.*1) as [k|]; [|reflexivity].
    by destruct (cats !! k).
Qed.



(** *** Memory and store *)

Lemma handle_keeps_store_in_step trim e s s' :
  handle trim e s = Returned s' →
  additions_of (localStorage s) = additions s
  ∧ history_of (localStorage s) = history s
  ∧ get (spinner_settings_excludePicked (localStorage s)) false = excludePicked s
  ∧ get (spinner_settings_showHistory (localStorage s)) false = showHistory s →
  additions_of (localStorage s') = additions s'
  ∧ history_of (localStorage s') = history s'
  ∧ get (spinner_settings_excludePicked (localStorage s')) false = excludePicked s'
  ∧ get (spinner_settings_showHistory (localStorage s')) false = showHistory s'.
Proof.
  intros Hstep (Hadd & Hhist & Hexcl & Hshow).
  handler_paths e Hstep; cbn; repeat split;
    first [assumption | reflexivity | congruence].
Qed.

Lemma visited_store_in_step trim cfg shown st s :
  visited trim cfg shown st s →
  additions_of (localStorage s) = additions s
  ∧ history_of (localStorage s) = history s
  ∧ get (spinner_settings_excludePicked (localStorage s)) false = excludePicked s
  ∧ get (spinner_settings_showHistory (localStorage s)) false = showHistory s.
Proof.
  apply (visited_invariant _ _ _ _
           (λ s, additions_of (localStorage s) = additions s
                 ∧ history_of (localStorage s) = history s
                 ∧ get (spinner_settings_excludePicked (localStorage s)) false
                   = excludePicked s
                 ∧ get (spinner_settings_showHistory (localStorage s)) false
                   = showHistory s)).
  - by repeat split.
  - intros s0 e s' _ IH _ Hstep. by eapply handle_keeps_store_in_step.
  - intros s0 _ (Hadd & Hhist & Hexcl & Hshow) _. by repeat split.
Qed.

(** X5. Memory and store never drift apart: in every state of a session the
    store holds the additions and the history that the module holds, and
    the two settings read from the store are the two flags in memory. *)
Theorem store_follows_memory (trim : string → string) (cfg : SpinnerConfig)
    (shown : string) (st : Store) (s : State) :
  visited trim cfg shown st s →
  additions_of (localStorage s) = additions s
  ∧ history_of (localStorage s) = history s
  ∧ get (spinner_settings_excludePicked (localStorage s)) false = excludePicked s
  ∧ get (spinner_settings_showHistory (localStorage s)) false = showHistory s.
Proof. apply visited_store_in_step. Qed.

Lemma excluding_visited :
  visited trim_ascii demo.config "" demo.noam_excluded demo.excluding.
Proof.
  apply (visited_returned _ _ _ _ demo.loaded (SetExcludePicked true));
    [apply visited_init | exact I | reflexivity].
Qed.

Lemma after_pick_visited :
  visited trim_ascii demo.config "" demo.noam_excluded demo_session.after_pick.
Proof.
  apply (visited_returned _ _ _ _ demo.excluding (Spin 1));
    [apply excluding_visited | exact I | reflexivity].
Qed.

Lemma after_add_visited :
  visited trim_ascii demo.config "" demo.noam_excluded demo_session.after_add.
Proof.
  apply (visited_returned _ _ _ _ demo.loaded (AddItem "Dana"));
    [apply visited_init | exact I | reflexivity].
Qed.

Lemma store_follows_memory_witness :
  history_of (localStorage demo_session.after_pick) = history demo_session.after_pick
  ∧ history demo_session.after_pick !! demo.students = Some ["Leah"%string].
Proof.
  destruct (store_follows_memory trim_ascii demo.config "" demo.noam_excluded
              demo_session.after_pick after_pick_visited) as (_ & Hhist & _).
  split; [exact Hhist | reflexivity].
Defined.

(** *** Reloading the page *)

Lemma init_current_category_ext cfg shown1 shown2 (st1 st2 : Store) :
  spinner_activeCategory st1 = spinner_activeCategory st2 →
  currentCategory (init cfg shown1 st1) = currentCategory (init cfg shown2 st2).
Proof. intros Hsaved. by rewrite !init_current_category, Hsaved. Qed.

Lemma visited_active_saved trim cfg shown st s shown' :
  visited trim cfg shown st s →
  currentCategory (init cfg shown' (localStorage s)) = currentCategory s.
Proof.
  apply (visited_invariant _ _ _ _
           (λ s, currentCategory (init cfg shown' (localStorage s)) = currentCategory s)).
  - by apply init_current_category_ext.
  - intros s0 e s' Hvisited IH Hoffered Hstep.
    pose proof (visited_base _ _ _ _ _ Hvisited) as Hbase.
    handler_paths e Hstep;
      try (transitivity (currentCategory (init cfg shown' (localStorage s0)));
           [by apply init_current_category_ext | exact IH]).
    rewrite init_current_category; cbn.
    cbn in Hoffered. rewrite Hbase in Hoffered. by destruct Hoffered as [base ->].
  - intros s0 _ IH _.
    transitivity (currentCategory (init cfg shown' (localStorage s0)));
      [by apply init_current_category_ext | exact IH].
Qed.

Lemma build_pool_none_excluded (base : list string) (added : option (list string)) :
  build_pool base added None = base ++ or_empty added.
Proof.
  unfold build_pool. rewrite js_filter_not_included.
  apply filter_keeps_all. intros x _. apply not_elem_of_nil.
Qed.

(** X6. A reload brings the session back: [init] on the store that a
    session left gives the same base configuration, additions, history,
    active category and settings as the session had, and for every
    configured category the pool [base ++ additions] without the labels of
    the stored exclusions. *)
Theorem reload_restores_session (trim : string → string) (cfg : SpinnerConfig)
    (shown shown' : string) (st : Store) (s : State) :
  visited trim cfg shown st s →
  let s0 := reload cfg shown' s in
  baseCategories s0 = baseCategories s
  ∧ additions s0 = additions s
  ∧ history s0 = history s
  ∧ currentCategory s0 = currentCategory s
  ∧ excludePicked s0 = excludePicked s
  ∧ showHistory s0 = showHistory s
  ∧ localStorage s0 = localStorage s
  ∧ ∀ cat base,
      baseCategories s !! cat = Some base →
      categories s0 !! cat
      = Some (filter (λ label, label ∉ or_empty (exclusions_of (localStorage s) !! cat))
                (base ++ or_empty (additions s !! cat))).
Proof.
  intros Hreach s0.
  destruct (visited_store_in_step _ _ _ _ _ Hreach) as (Hadd & Hhist & Hexcl & Hshow).
  pose proof (visited_base _ _ _ _ _ Hreach) as Hbase.
  assert (baseCategories s0 = baseCategories s) as Hbase0 by (by rewrite Hbase).
  split; [exact Hbase0|]. split; [exact Hadd|]. split; [exact Hhist|].
  split; [by eapply visited_active_saved|].
  split; [exact Hexcl|]. split; [exact Hshow|]. split; [reflexivity|].
  intros cat base Hcat. subst s0. unfold reload.
  rewrite init_categories_lookup. fold (reload cfg shown' s).
  rewrite Hbase0, Hcat; cbn. rewrite Hadd. f_equal. apply js_filter_not_included.
Qed.

Lemma reload_restores_session_witness :
  history (reload demo.config "x" demo_session.after_pick)
  = history demo_session.after_pick
  ∧ categories (reload demo.config "x" demo_session.after_pick) !! demo.students
    = Some ["Ari"%string].
Proof.
  destruct (reload_restores_session trim_ascii demo.config "" "x" demo.noam_excluded
              demo_session.after_pick after_pick_visited)
    as (_ & _ & Hhist & _ & _ & _ & _ & Hpools).
  split; [exact Hhist|].
  rewrite (Hpools demo.students ["Ari"; "Leah"; "Noam"]%string eq_refl). reflexivity.
Defined.

(** What a spin that picks [item] leaves. *)
Lemma spin_picked (r : nat) (s : State) (item : string) :
  pool s !! random_index r (length (pool s)) = Some item →
  ∃ s', spin r s = Returned s'
    ∧ history s' = <[key s := or_empty (history s !! key s) ++ [item]]> (history s)
    ∧ currentCategory s' = currentCategory s
    ∧ excludePicked s' = excludePicked s
    ∧ additions s' = additions s
    ∧ baseCategories s' = baseCategories s
    ∧ categories s'
      = (if excludePicked s
         then <[key s := delete (random_index r (length (pool s))) (pool s)]> (categories s)
         else categories s)
    ∧ exclusions_of (localStorage s')
      = (if excludePicked s
         then <[key s := or_empty (exclusions_of (localStorage s) !! key s) ++ [item]]>
                (exclusions_of (localStorage s))
         else exclusions_of (localStorage s)).
Proof.
  intros Hitem. unfold spin. fold (pool s).
  rewrite decide_False by (by eapply lookup_Some_length_nonzero).
  rewrite Hitem. eexists; split; [reflexivity|].
  destruct (excludePicked s) eqn:Hexcl; cbn; rewrite ?splice1_delete;
    repeat split; exact Hexcl.
Qed.

Lemma init_display cfg shown st :
  resultDisplay (init cfg shown st)
  = match last_pick (history_of st) (key (init cfg shown st)) with
    | Some item => item
    | None => shown
    end.
Proof. reflexivity. Qed.

(** X7. The last pick survives a reload: after a spin that picked a label,
    [init] on the store the spin left shows that label in the result
    area. *)
Theorem reload_shows_last_pick (trim : string → string) (cfg : SpinnerConfig)
    (shown shown' : string) (st : Store) (s s' : State) (r : nat) (item : string) :
  visited trim cfg shown st s →
  pool s !! random_index r (length (pool s)) = Some item →
  spin r s = Returned s' →
  resultDisplay (reload cfg shown' s') = item.
Proof.
  intros Hreach Hitem Hspin.
  assert (visited trim cfg shown st s') as Hreach'
    by (by apply (visited_returned _ _ _ _ s (Spin r))).
  destruct (spin_picked r s item Hitem) as (s1 & Hspin1 & Hhist & Hcur & _).
  rewrite Hspin in Hspin1. injection Hspin1 as <-.
  destruct (visited_store_in_step _ _ _ _ _ Hreach') as (_ & Hstored & _).
  unfold reload. rewrite init_display, Hstored.
  unfold key at 1. rewrite (visited_active_saved _ _ _ _ _ shown' Hreach'), Hcur.
  fold (key s). unfold last_pick. rewrite Hhist, lookup_insert_eq.
  by rewrite last_snoc.
Qed.

Lemma reload_shows_last_pick_witness :
  resultDisplay (reload demo.config "Press Spin to start!" demo_session.after_pick)
  = "Leah"%string.
Proof.
  apply (reload_shows_last_pick trim_ascii demo.config "" _ demo.noam_excluded
           demo.excluding demo_session.after_pick 1 "Leah");
    [apply excluding_visited | reflexivity | reflexivity].
Defined.

(** X8. A label picked under exclude-on-pick is gone after a reload: the
    pool that [init] builds for that category from the store the spin left
    does not hold the label at all, however often the live pool held it. *)
Theorem excluded_pick_absent_after_reload (cfg : SpinnerConfig) (shown : string)
    (s s' : State) (r : nat) (item : string) (p : list string) :
  excludePicked s = true →
  pool s !! random_index r (length (pool s)) = Some item →
  spin r s = Returned s' →
  categories (reload cfg shown s') !! key s = Some p →
  item ∉ p.
Proof.
  intros Hexcl Hitem Hspin.
  destruct (spin_picked r s item Hitem) as (s1 & Hspin1 & _ & _ & _ & _ & _ & _ & Hstored).
  rewrite Hspin in Hspin1. injection Hspin1 as <-. rewrite Hexcl in Hstored.
  unfold reload. rewrite init_categories_lookup.
  destruct (baseCategories _ !! key s) as [base|]; [|discriminate].
  intros [= <-]. rewrite Hstored, lookup_insert_eq.
  unfold build_pool. rewrite js_filter_not_included, list_elem_of_filter.
  intros [Hnot _]. apply Hnot. cbn. rewrite elem_of_app, list_elem_of_singleton. by right.
Qed.

Lemma excluded_pick_absent_after_reload_witness :
  categories (reload demo.config "" demo_session.after_pick) !! demo.students
  = Some ["Ari"%string]
  ∧ "Leah"%string ∉ ["Ari"%string].
Proof.
  split; [reflexivity|].
  apply (excluded_pick_absent_after_reload demo.config "" demo.excluding
           demo_session.after_pick 1 "Leah" ["Ari"%string]); reflexivity.
Defined.

(** *** Reset *)

(** X9. After [reset] the live pool of the active category is the pool a
    reload would build for it: nothing of the category is left in the
    stored exclusions, so both are [base ++ additions]. *)
Theorem reset_agrees_with_reload (trim : string → string) (cfg : SpinnerConfig)
    (shown shown' : string) (st : Store) (s s' : State) :
  visited trim cfg shown st s →
  reset s = Returned s' →
  categories (reload cfg shown' s') !! key s = categories s' !! key s.
Proof.
  intros Hreach Hreset.
  destruct (visited_store_in_step _ _ _ _ _ Hreach) as (Hadd & _).
  pose proof (visited_base _ _ _ _ _ Hreach) as Hbase.
  unfold reload. rewrite init_categories_lookup.
  change (baseCategories (init cfg shown' (localStorage s')))
    with (list_to_map (get (cfg_categories cfg) []) : jsobj).
  rewrite <- Hbase. revert Hreset. unfold reset; cbn.
  destruct (baseCategories s !! key s) as [base|]; [|discriminate].
  intros [= <-]; cbn. rewrite lookup_insert_eq, lookup_delete_eq.
  rewrite build_pool_none_excluded.
  change (additions_of (set_history _ (set_exclusions _ (localStorage s))))
    with (additions_of (localStorage s)).
  by rewrite Hadd.
Qed.

Lemma reset_agrees_with_reload_witness :
  reset demo_session.after_pick = Returned demo_session.after_reset
  ∧ categories (reload demo.config "" demo_session.after_reset) !! demo.students
    = Some ["Ari"; "Leah"; "Noam"]%string.
Proof.
  split; [reflexivity|].
  exact (eq_trans
           (reset_agrees_with_reload trim_ascii demo.config "" "" demo.noam_excluded
              demo_session.after_pick demo_session.after_reset
              after_pick_visited eq_refl)
           eq_refl).
Defined.

(** The state that [reset] returns, field by field. *)
Lemma reset_returned (s : State) (base : list string) :
  baseCategories s !! key s = Some base →
  reset s
  = Returned
      (mkState (<[key s := base ++ or_empty (additions s !! key s)]> (categories s))
         (baseCategories s) (additions s) (currentCategory s)
         (delete (key s) (history s)) (excludePicked s) (showHistory s) "Reset!"
         (mkStore (spinner_additions (localStorage s))
            (Some (delete (key s) (exclusions_of (localStorage s))))
            (Some (delete (key s) (history s)))
            (spinner_settings_excludePicked (localStorage s))
            (spinner_settings_showHistory (localStorage s))
            (spinner_activeCategory (localStorage s)))).
Proof. intros Hbase. unfold reset; cbn. by rewrite Hbase. Qed.

(** X10. A second [reset] changes nothing: from the state a [reset]
    returned, [reset] returns that same state again. *)
Theorem reset_twice (s s' : State) :
  reset s = Returned s' → reset s' = Returned s'.
Proof.
  destruct (baseCategories s !! key s) as [base|] eqn:Hbase.
  - rewrite (reset_returned s base Hbase). intros [= <-].
    erewrite (reset_returned _ base); [|exact Hbase]. unfold key, exclusions_of; cbn.
    by rewrite !delete_delete_eq, insert_insert_eq.
  - unfold reset; cbn. by rewrite Hbase.
Qed.

Lemma reset_twice_witness :
  reset demo_session.after_reset = Returned demo_session.after_reset.
Proof.
  apply (reset_twice demo_session.after_pick demo_session.after_reset). reflexivity.
Defined.

(** X11. [reset] throws exactly when the active category is not a key of
    the base configuration.  By then the entry of that name is deleted
    from the history and from the stored exclusions, and written to the
    store; pools and additions are as before. *)
Theorem reset_throws_iff_not_configured (s : State) :
  ((∃ error s', reset s = Threw error s') ↔ baseCategories s !! key s = None)
  ∧ ∀ error s',
      reset s = Threw error s' →
      categories s' = categories s
      ∧ additions s' = additions s
      ∧ currentCategory s' = currentCategory s
      ∧ history s' = delete (key s) (history s)
      ∧ history_of (localStorage s') = history s'
      ∧ exclusions_of (localStorage s') = delete (key s) (exclusions_of (localStorage s)).
Proof.
  unfold reset; cbn. destruct (baseCategories s !! key s) as [base|].
  - split; [|discriminate]. split; [intros (? & ? & [=]) | discriminate].
  - split; [split; eauto|]. intros error s' [= <- <-]. by repeat split.
Qed.

Lemma reset_throws_iff_not_configured_witness :
  ∃ error s', reset (init demo.no_categories "" demo.orphaned) = Threw error s'.
Proof.
  destruct (reset_throws_iff_not_configured (init demo.no_categories "" demo.orphaned))
    as [[_ Hthrows] _].
  apply Hthrows. reflexivity.
Defined.

(** *** Add item *)

(** X12. An added label outlasts a reset: when a label is added to a
    configured category and that category is then reset, the pool is
    [base ++ additions] with the new label last, and so is the export of
    the category. *)
Theorem added_label_survives_reset (trim : string → string) (input : string)
    (s : State) (base : list string) :
  trim input ≠ ""%string →
  baseCategories s !! key s = Some base →
  ∃ s1 s2, addNewItem trim input s = Returned s1
    ∧ reset s1 = Returned s2
    ∧ pool s2 = base ++ or_empty (additions s !! key s) ++ [trim input]
    ∧ getExportCategories s2 !! key s
      = Some (base ++ or_empty (additions s !! key s) ++ [trim input]).
Proof.
  intros Hlabel Hbase. unfold addNewItem. rewrite decide_False by exact Hlabel.
  eexists; eexists. split; [reflexivity|].
  erewrite (reset_returned _ base); [|exact Hbase].
  split; [reflexivity|].
  unfold pool, getExportCategories, key; cbn. fold (key s).
  rewrite map_lookup_imap, Hbase, !lookup_insert_eq; cbn.
  by rewrite ?lookup_insert_eq.
Qed.

Lemma added_label_survives_reset_witness :
  ∃ s1 s2, addNewItem trim_ascii " Dana " demo.loaded = Returned s1
    ∧ reset s1 = Returned s2
    ∧ pool s2 = ["Ari"; "Leah"; "Noam"; "Dana"]%string.
Proof.
  destruct (added_label_survives_reset trim_ascii " Dana " demo.loaded
              ["Ari"; "Leah"; "Noam"]%string) as (s1 & s2 & Hadd & Hreset & Hpool & _);
    [discriminate | reflexivity |].
  exists s1, s2. split; [exact Hadd|]. split; [exact Hreset|]. by rewrite Hpool.
Defined.

(** *** History *)

(** X13. The history is append-only outside [reset] and [clearHistory]:
    every other handler leaves the history of every category a prefix of
    what it is afterwards, longer by at most one pick. *)
Theorem history_only_grows (trim : string → string) (e : event) (s s' : State)
    (cat : string) :
  handle trim e s = Returned s' →
  e ≠ Reset →
  e ≠ ClearHistory →
  or_empty (history s !! cat) `prefix_of` or_empty (history s' !! cat)
  ∧ length (or_empty (history s' !! cat)) ≤ S (length (or_empty (history s !! cat))).
Proof.
  intros Hstep Hreset Hclear.
  assert (∀ item,
            or_empty (history s !! cat)
              `prefix_of` or_empty (<[key s := or_empty (history s !! key s) ++ [item]]>
                                      (history s) !! cat)
            ∧ length (or_empty (<[key s := or_empty (history s !! key s) ++ [item]]>
                                  (history s) !! cat))
              ≤ S (length (or_empty (history s !! cat)))) as Hpick.
  { intros item. destruct (decide (cat = key s)) as [->|Hother].
    - rewrite lookup_insert_eq; cbn. split; [by apply prefix_app_r|].
      rewrite length_app; cbn. lia.
    - rewrite lookup_insert_ne by congruence. split; [reflexivity | lia]. }
  handler_paths e Hstep; try congruence; cbn;
    first [apply Hpick | split; [reflexivity | lia]].
Qed.

Lemma history_only_grows_witness :
  or_empty (history demo.excluding !! demo.students)
    `prefix_of` or_empty (history demo_session.after_pick !! demo.students)
  ∧ or_empty (history demo_session.after_pick !! demo.students) = ["Leah"%string].
Proof.
  destruct (history_only_grows trim_ascii (Spin 1) demo.excluding
              demo_session.after_pick demo.students eq_refl)
    as [Hprefix _]; [discriminate | discriminate |].
  split; [exact Hprefix | reflexivity].
Defined.

Lemma updateHistoryUI_reverse (s : State) :
  updateHistoryUI s = reverse (or_empty (history s !! key s)).
Proof.
  unfold updateHistoryUI. destruct (history s !! key s) as [[|x h]|]; cbn; try reflexivity.
Qed.

(** X14. The history list shows the newest pick first: the list that
    [updateHistoryUI] renders after a spin that picked a label is that
    label followed by the list as it was rendered before the spin. *)
Theorem history_list_after_spin (r : nat) (s s' : State) (item : string) :
  pool s !! random_index r (length (pool s)) = Some item →
  spin r s = Returned s' →
  updateHistoryUI s' = item :: updateHistoryUI s.
Proof.
  intros Hitem Hspin.
  destruct (spin_picked r s item Hitem) as (s1 & Hspin1 & Hhist & Hcur & _).
  rewrite Hspin in Hspin1. injection Hspin1 as <-.
  rewrite !updateHistoryUI_reverse. unfold key at 1. rewrite Hcur. fold (key s).
  by rewrite Hhist, lookup_insert_eq, <- reverse_snoc.
Qed.

Lemma history_list_after_spin_witness :
  updateHistoryUI demo_session.after_pick = ["Leah"%string].
Proof.
  apply (history_list_after_spin 1 demo.excluding demo_session.after_pick "Leah");
    reflexivity.
Defined.

(** X15. [clearHistory] removes the history of the active category and of
    no other, in memory and in the store; the history list it renders is
    empty; pools, additions and stored exclusions are as before; and a
    reload does not bring the cleared history back. *)
Theorem clearHistory_clears_active_only (cfg : SpinnerConfig) (shown : string)
    (s s' : State) :
  clearHistory s = Returned s' →
  history s' = delete (key s) (history s)
  ∧ history_of (localStorage s') = history s'
  ∧ (∀ other, other ≠ key s → history s' !! other = history s !! other)
  ∧ updateHistoryUI s' = []
  ∧ categories s' = categories s
  ∧ additions s' = additions s
  ∧ spinner_exclusions (localStorage s') = spinner_exclusions (localStorage s)
  ∧ currentCategory s' = currentCategory s
  ∧ history (reload cfg shown s') !! key s = None.
Proof.
  unfold clearHistory. intros [= <-]. split; [reflexivity|]. split; [reflexivity|].
  split; [intros other Hother; cbn; by rewrite lookup_delete_ne|].
  split.
  { rewrite updateHistoryUI_reverse. unfold key; cbn. fold (key s).
    by rewrite lookup_delete_eq. }
  repeat split. cbn. by rewrite lookup_delete_eq.
Qed.

Lemma clearHistory_clears_active_only_witness :
  ∃ s', clearHistory demo_session.after_pick = Returned s'
    ∧ history s' !! demo.students = None.
Proof.
  eexists. split; [reflexivity|].
  destruct (clearHistory_clears_active_only demo.config "" demo_session.after_pick _
              eq_refl) as (Hhist & _).
  rewrite Hhist. reflexivity.
Defined.

(** X16. A chosen category is the active one after a reload: choosing a
    configured category in the select makes it the active category, stores
    the choice, touches no pool and no history, and [init] on the store
    then makes the same category active. *)
Theorem selected_category_survives_reload (trim : string → string)
    (cfg : SpinnerConfig) (shown shown' : string) (st : Store) (s s' : State)
    (value : string) :
  visited trim cfg shown st s →
  is_Some (baseCategories s !! value) →
  selectCategory value s = Returned s' →
  currentCategory s' = Some value
  ∧ spinner_activeCategory (localStorage s') = Some value
  ∧ categories s' = categories s
  ∧ history s' = history s
  ∧ additions s' = additions s
  ∧ currentCategory (reload cfg shown' s') = Some value.
Proof.
  intros Hreach Hvalue Hselect.
  assert (visited trim cfg shown st s') as Hreach'
    by (by apply (visited_returned _ _ _ _ s (SelectCategory value))).
  pose proof (visited_active_saved _ _ _ _ _ shown' Hreach') as Hsaved.
  unfold reload. rewrite Hsaved.
  unfold selectCategory in Hselect. injection Hselect as <-. by repeat split.
Qed.

Lemma selected_category_survives_reload_witness :
  ∃ s', selectCategory demo.students demo.loaded = Returned s'
    ∧ currentCategory (reload demo.config "" s') = Some demo.students.
Proof.
  eexists. split; [reflexivity|].
  destruct (selected_category_survives_reload trim_ascii demo.config "" ""
              demo.noam_excluded demo.loaded _ demo.students
              (visited_init _ _ _ _) (mk_is_Some _ _ eq_refl) eq_refl)
    as (_ & _ & _ & _ & _ & Hreload).
  exact Hreload.
Defined.

(** *** Pools *)

Lemma handle_keeps_pools_within trim e s s' :
  handle trim e s = Returned s' →
  (∀ cat p, categories s !! cat = Some p →
            p ⊆+ or_empty (baseCategories s !! cat) ++ or_empty (additions s !! cat)) →
  ∀ cat p, categories s' !! cat = Some p →
           p ⊆+ or_empty (baseCategories s' !! cat) ++ or_empty (additions s' !! cat).
Proof.
  intros Hstep Hwithin cat p.
  handler_paths e Hstep; cbn; try apply Hwithin.
  - (* spin, the picked element taken out *)
    destruct (decide (cat = key s)) as [->|Hother];
      [|rewrite lookup_insert_ne by congruence; apply Hwithin].
    rewrite lookup_insert_eq. intros [= <-]. rewrite splice1_delete.
    destruct (categories s !! key s) as [pool0|] eqn:Hpool; cbn.
    + etransitivity; [apply sublist_submseteq, sublist_delete | by apply Hwithin].
    + apply submseteq_nil_l.
  - (* shuffle *)
    destruct (decide (cat = key s)) as [->|Hother];
      [|rewrite lookup_insert_ne by congruence; apply Hwithin].
    rewrite lookup_insert_eq. intros [= <-].
    rewrite shuffle_loop_Permutation. by apply Hwithin.
  - (* reset *)
    destruct (decide (cat = key s)) as [->|Hother];
      [|rewrite lookup_insert_ne by congruence; apply Hwithin].
    rewrite lookup_insert_eq. intros [= <-].
    match goal with H : baseCategories s !! key s = Some _ |- _ => rewrite H end.
    reflexivity.
  - (* addNewItem *)
    destruct (decide (cat = key s)) as [->|Hother];
      [|rewrite !lookup_insert_ne by congruence; apply Hwithin].
    rewrite !lookup_insert_eq. intros [= <-]. cbn.
    rewrite (assoc_L (++)). apply submseteq_skips_r.
    destruct (categories s !! key s) as [pool0|] eqn:Hpool; cbn.
    + by apply Hwithin.
    + apply submseteq_nil_l.
Qed.

(** X17. The engine never invents a label: in every state of a session
    each pool is a sub-multiset of its category's [base ++ additions], so
    every label of a pool is a base or an added label, no label occurs in
    the pool more often than there, and the pool is no longer. *)
Theorem pools_within_base_and_additions (trim : string → string) (cfg : SpinnerConfig)
    (shown : string) (st : Store) (s : State) (cat : string) (p : list string) :
  visited trim cfg shown st s →
  categories s !! cat = Some p →
  let source := or_empty (baseCategories s !! cat) ++ or_empty (additions s !! cat) in
  p ⊆+ source
  ∧ (∀ label, label ∈ p → label ∈ source)
  ∧ length p ≤ length source.
Proof.
  intros Hvisited Hpool source.
  assert (p ⊆+ source) as Hsub.
  { subst source. revert cat p Hpool.
    apply (visited_invariant trim cfg shown st
             (λ s, ∀ cat p, categories s !! cat = Some p →
                     p ⊆+ or_empty (baseCategories s !! cat)
                          ++ or_empty (additions s !! cat)));
      [| | |exact Hvisited].
    - intros cat p. rewrite init_categories_lookup.
      destruct (baseCategories _ !! cat) as [base|]; [|discriminate].
      intros [= <-]. unfold build_pool. rewrite js_filter_not_included.
      apply sublist_submseteq, sublist_filter.
    - intros s0 e s' _ IH _ Hstep. by eapply handle_keeps_pools_within.
    - intros s0 _ IH _. exact IH. }
  split; [exact Hsub|]. split.
  - intros label Hin. by eapply elem_of_submseteq.
  - by apply submseteq_length.
Qed.

Lemma pools_within_base_and_additions_witness :
  length ["Ari"%string] ≤ length ["Ari"; "Leah"; "Noam"]%string.
Proof.
  destruct (pools_within_base_and_additions trim_ascii demo.config "" demo.noam_excluded
              demo_session.after_pick demo.students ["Ari"%string]
              after_pick_visited eq_refl) as (_ & _ & Hlen).
  exact Hlen.
Defined.






(** *** Spinning a pool dry *)

Lemma pool_after_excluding_pick (r : nat) (s s' : State) (item : string) :
  excludePicked s = true →
  pool s !! random_index r (length (pool s)) = Some item →
  spin r s = Returned s' →
  key s' = key s
  ∧ excludePicked s' = true
  ∧ pool s' = delete (random_index r (length (pool s))) (pool s)
  ∧ or_empty (history s' !! key s) = or_empty (history s !! key s) ++ [item]
  ∧ or_empty (exclusions_of (localStorage s') !! key s)
    = or_empty (exclusions_of (localStorage s) !! key s) ++ [item].
Proof.
  intros Hexcl Hitem Hspin.
  destruct (spin_picked r s item Hitem)
    as (s1 & Hspin1 & Hhist & Hcur & Hexcl' & _ & _ & Hcats & Hstored).
  rewrite Hspin in Hspin1. injection Hspin1 as <-.
  rewrite Hexcl in Hcats, Hstored, Hexcl'.
  assert (key s' = key s) as Hkey by (unfold key; by rewrite Hcur).
  split; [exact Hkey|]. split; [exact Hexcl'|].
  split; [unfold pool at 1; by rewrite Hkey, Hcats, lookup_insert_eq|].
  by rewrite Hhist, Hstored, !lookup_insert_eq.
Qed.

(** X19. Exclude-on-pick deals the pool out: as many spins as the pool has
    elements return, whatever is drawn, with the pool empty, and the picks
    they appended to the history and to the stored exclusions are a
    permutation of the pool, each element picked once.  The spin after
    those reports that no items are available. *)
Theorem excluding_spins_deal_out_pool (draws : list nat) (s : State) :
  excludePicked s = true →
  length draws = length (pool s) →
  ∃ s' picks, spins draws s = Returned s'
    ∧ pool s' = []
    ∧ picks ≡ₚ pool s
    ∧ or_empty (history s' !! key s) = or_empty (history s !! key s) ++ picks
    ∧ or_empty (exclusions_of (localStorage s') !! key s)
      = or_empty (exclusions_of (localStorage s) !! key s) ++ picks
    ∧ ∀ r, ∃ s'', spin r s' = Returned s''
                  ∧ resultDisplay s'' = "No items available"%string.
Proof.
  revert s. induction draws as [|r rest IH]; intros s Hexcl Hlen.
  - assert (pool s = []) as Hempty by (by apply nil_length_inv).
    exists s, []. rewrite Hempty, !app_nil_r.
    do 5 (split; [reflexivity|]).
    intros r. unfold spin. fold (pool s). rewrite Hempty. cbn. eauto.
  - cbn in Hlen.
    destruct (spin_draw_in_pool r (pool s)) as [item Hitem]; [lia|].
    destruct (spin_picked r s item Hitem) as (s1 & Hspin & _).
    destruct (pool_after_excluding_pick r s s1 item Hexcl Hitem Hspin)
      as (Hkey & Hexcl1 & Hpool1 & Hhist1 & Hstored1).
    destruct (IH s1 Hexcl1) as (s' & picks & Hspins & Hdry & Hperm & Hhist & Hstored & Hnext).
    { rewrite Hpool1, length_delete by eauto. lia. }
    exists s', (item :: picks). cbn. rewrite Hspin.
    split; [exact Hspins|]. split; [exact Hdry|].
    split; [rewrite Hperm, Hpool1; symmetry; by apply delete_Permutation|].
    rewrite Hkey in Hhist, Hstored.
    split; [by rewrite Hhist, Hhist1, <- (assoc_L (++))|].
    split; [by rewrite Hstored, Hstored1, <- (assoc_L (++))|].
    exact Hnext.
Qed.

Lemma excluding_spins_deal_out_pool_witness :
  ∃ s' picks, spins [1; 0] demo.excluding = Returned s'
    ∧ pool s' = []
    ∧ picks ≡ₚ ["Ari"; "Leah"]%string.
Proof.
  destruct (excluding_spins_deal_out_pool [1; 0] demo.excluding eq_refl eq_refl)
    as (s' & picks & Hspins & Hdry & Hperm & _).
  exists s', picks. by repeat split.
Defined.

(** *** Export and import *)

(** X20. Importing an export on the same browser counts the additions
    twice: [init] on the exported categories reads the exported
    [base ++ additions] as the base and appends the additions that are
    still in the store, so a pool is [base ++ additions ++ additions]
    without the labels of the stored exclusions. *)
Theorem reimported_export_doubles_additions (trim : string → string)
    (cfg : SpinnerConfig) (shown : string) (st : Store) (s : State)
    (exported : list (string * list string)) (cat : string) (base : list string) :
  visited trim cfg shown st s →
  list_to_map exported = getExportCategories s →
  baseCategories s !! cat = Some base →
  categories (reimport (mkConfig (Some exported)) s) !! cat
  = Some (filter (λ label, label ∉ or_empty (exclusions_of (localStorage s) !! cat))
            (base ++ or_empty (additions s !! cat) ++ or_empty (additions s !! cat))).
Proof.
  intros Hreach Hexported Hbase.
  destruct (visited_store_in_step _ _ _ _ _ Hreach) as (Hadd & _).
  unfold reimport. rewrite init_categories_lookup.
  change (baseCategories (init (mkConfig (Some exported)) (resultDisplay s) (localStorage s)))
    with (list_to_map exported : jsobj).
  rewrite Hexported. unfold getExportCategories.
  rewrite map_lookup_imap, Hbase; cbn. f_equal.
  unfold build_pool. rewrite js_filter_not_included, Hadd.
  by rewrite <- (assoc_L (++)).
Qed.

Lemma reimported_export_doubles_additions_witness :
  categories (reimport (mkConfig (Some [(demo.students,
                                         ["Ari"; "Leah"; "Noam"; "Dana"]%string)]))
                demo_session.after_add) !! demo.students
  = Some ["Ari"; "Leah"; "Dana"; "Dana"]%string.
Proof.
  rewrite (reimported_export_doubles_additions trim_ascii demo.config ""
             demo.noam_excluded demo_session.after_add _ demo.students
             ["Ari"; "Leah"; "Noam"]%string after_add_visited);
    reflexivity.
Defined.

(** *** Settings *)

(** X21. Toggling the history panel twice by the shortcut gives back the
    setting: the first toggle stores and sets the opposite flag, the second
    the flag as it was, and neither touches pools, history, additions or
    the active category. *)
Theorem history_toggled_twice (s s1 s2 : State) :
  toggleHistoryViaShortcut s = Returned s1 →
  toggleHistoryViaShortcut s1 = Returned s2 →
  showHistory s1 = negb (showHistory s)
  ∧ spinner_settings_showHistory (localStorage s1) = Some (negb (showHistory s))
  ∧ showHistory s2 = showHistory s
  ∧ spinner_settings_showHistory (localStorage s2) = Some (showHistory s)
  ∧ categories s2 = categories s
  ∧ history s2 = history s
  ∧ additions s2 = additions s
  ∧ currentCategory s2 = currentCategory s
  ∧ excludePicked s2 = excludePicked s.
Proof.
  unfold toggleHistoryViaShortcut, setShowHistory.
  intros [= <-] [= <-]; cbn. rewrite negb_involutive. by repeat split.
Qed.

Lemma history_toggled_twice_witness :
  ∃ s1 s2, toggleHistoryViaShortcut demo.loaded = Returned s1
    ∧ toggleHistoryViaShortcut s1 = Returned s2
    ∧ showHistory s1 = true ∧ showHistory s2 = false.
Proof.
  eexists; eexists. split; [reflexivity|]. split; [reflexivity|].
  destruct (history_toggled_twice demo.loaded _ _ eq_refl eq_refl)
    as (H1 & _ & H2 & _).
  split; [exact H1 | exact H2].
Defined.

(** *** Nothing configured, and leftovers of an older configuration *)



(** X24. [init] reads the stored additions and exclusions of the
    configured categories only: two stores that agree on those give the
    same pools, whatever else they hold under other names, and no pool is
    built for a name that is not configured. *)
Theorem init_reads_configured_entries_only (cfg : SpinnerConfig) (shown : string)
    (st1 st2 : Store) :
  (∀ cat, is_Some ((list_to_map (get (cfg_categories cfg) []) : jsobj) !! cat) →
          additions_of st1 !! cat = additions_of st2 !! cat
          ∧ exclusions_of st1 !! cat = exclusions_of st2 !! cat) →
  categories (init cfg shown st1) = categories (init cfg shown st2)
  ∧ ∀ cat, (list_to_map (get (cfg_categories cfg) []) : jsobj) !! cat = None →
           categories (init cfg shown st1) !! cat = None.
Proof.
  intros Hsame. split.
  - apply init_categories_ext. intros cat Hcat.
    destruct (Hsame cat Hcat) as [-> ->]. done.
  - intros cat Hnone. rewrite init_categories_lookup.
    change (baseCategories (init cfg shown st1))
      with (list_to_map (get (cfg_categories cfg) []) : jsobj).
    by rewrite Hnone.
Qed.

Lemma init_reads_configured_entries_only_witness :
  categories (init demo.config "" demo.orphaned)
  = categories (init demo.config "" storage.empty)
  ∧ categories (init demo.config "" demo.orphaned) !! demo.old = None.
Proof.
  destruct (init_reads_configured_entries_only demo.config "" demo.orphaned storage.empty)
    as [Hsame Hnone].
  - intros cat [base Hcat]. destruct (decide (cat = demo.students)) as [->|Hother].
    + split; reflexivity.
    + exfalso. revert Hcat. cbn.
      by rewrite lookup_insert_ne, lookup_empty by congruence.
  - split; [exact Hsame | by apply Hnone].
Defined.

(** *** Every order can come out of a shuffle *)

Lemma shuffle_loop_S (rnd : nat → nat) (i : nat) (arr : list string) :
  shuffle_loop rnd (S i) arr
  = shuffle_loop rnd i (swap (S i) (random_index (rnd (S i)) (S i + 1)) arr).
Proof. reflexivity. Qed.

Lemma shuffle_loop_ext (rnd1 rnd2 : nat → nat) (i : nat) (arr : list string) :
  (∀ k, 0 < k ≤ i → rnd1 k = rnd2 k) →
  shuffle_loop rnd1 i arr = shuffle_loop rnd2 i arr.
Proof.
  revert arr. induction i as [|i IH]; intros arr Hsame; [reflexivity|].
  rewrite !shuffle_loop_S, (Hsame (S i)) by lia.
  apply IH. intros k Hk. apply Hsame. lia.
Qed.

Lemma swap_drop (i j n : nat) (arr : list string) :
  i < n → j < n → drop n (swap i j arr) = drop n arr.
Proof.
  intros Hi Hj. unfold swap. destruct (arr !! i), (arr !! j); try reflexivity.
  by rewrite !drop_insert_lt.
Qed.

Lemma swap_take_Permutation (i j n : nat) (arr : list string) :
  i < n → j < n → take n (swap i j arr) ≡ₚ take n arr.
Proof.
  intros Hi Hj. apply (inj (.++ drop n arr)).
  rewrite <- (swap_drop i j n arr Hi Hj) at 1.
  rewrite !take_drop. apply swap_Permutation.
Qed.

(** The loop from counter [i] can turn the first [i + 1] positions of the
    array into any arrangement of them. *)
Lemma shuffle_loop_reaches (i : nat) (arr target : list string) :
  i < length arr →
  take (S i) target ≡ₚ take (S i) arr →
  drop (S i) target = drop (S i) arr →
  ∃ rnd, shuffle_loop rnd i arr = target.
Proof.
  revert arr target. induction i as [|i IH]; intros arr target Hi Hperm Hrest.
  - exists (λ _, 0). cbn.
    rewrite <- (take_drop 1 arr), <- (take_drop 1 target), Hrest. f_equal.
    destruct arr as [|a arr]; [cbn in Hi; lia|]. cbn in Hperm |- *.
    rewrite take_0 in Hperm |- *. symmetry. by apply Permutation_singleton_r.
  - assert (length target = length arr) as Hlen.
    { rewrite <- (take_drop (S (S i)) arr), <- (take_drop (S (S i)) target).
      by rewrite !length_app, Hperm, Hrest. }
    destruct (lookup_lt_is_Some_2 target (S i)) as [x Hx]; [lia|].
    assert (x ∈ take (S (S i)) arr) as Hin.
    { rewrite <- Hperm. apply list_elem_of_lookup. exists (S i).
      apply lookup_take_Some. split; [exact Hx | lia]. }
    apply list_elem_of_lookup in Hin as [j Hj].
    apply lookup_take_Some in Hj as [Hj Hjlt].
    pose proof (lookup_lt_is_Some_2 arr (S i) Hi) as Hsome.
    set (arr' := swap (S i) j arr).
    assert (arr' !! S i = Some x) as Hx'.
    { subst arr'. rewrite swap_lookup by eauto.
      unfold transpose. by rewrite decide_True. }
    destruct (IH arr' target) as [rnd' Hrnd'].
    + subst arr'. rewrite swap_length. lia.
    + apply (inj (.++ [x])).
      rewrite <- (take_S_r target (S i) x Hx), <- (take_S_r arr' (S i) x Hx').
      rewrite Hperm. subst arr'. symmetry. apply swap_take_Permutation; lia.
    + rewrite (drop_S target x (S i) Hx), (drop_S arr' x (S i) Hx'), Hrest.
      subst arr'. by rewrite swap_drop by lia.
    + exists (λ k, if decide (k = S i) then j else rnd' k).
      rewrite shuffle_loop_S, decide_True by reflexivity.
      rewrite random_index_small by lia. fold arr'.
      rewrite <- Hrnd'. apply shuffle_loop_ext.
      intros k Hk. rewrite decide_False by lia. reflexivity.
Qed.

(** X25. Every order can come out of a shuffle: for each arrangement of
    the labels of the live pool there are draws with which [shuffle]
    returns and leaves the pool in that arrangement. *)
Theorem shuffle_reaches_every_order (s : State) (target : list string) :
  target ≡ₚ pool s →
  ∃ rnd s', shuffle rnd s = Returned s' ∧ pool s' = target.
Proof.
  intros Hperm. unfold shuffle, pool in *.
  destruct (categories s !! key s) as [pool0|] eqn:Hpool; cbn in Hperm.
  - assert (∃ rnd, shuffle_loop rnd (length pool0 - 1) pool0 = target) as [rnd Hrnd].
    { destruct pool0 as [|a rest].
      - apply Permutation_nil_r in Hperm as ->. by exists (λ _, 0).
      - apply shuffle_loop_reaches.
        + cbn. lia.
        + rewrite !take_ge by (rewrite ?(Permutation_length Hperm); cbn; lia).
          exact Hperm.
        + by rewrite !drop_ge by (rewrite ?(Permutation_length Hperm); cbn; lia). }
    exists rnd. eexists; split; [reflexivity|].
    unfold key; cbn. fold (key s). by rewrite lookup_insert_eq, Hrnd.
  - apply Permutation_nil_r in Hperm as ->.
    exists (λ _, 0). eexists; split; [reflexivity|].
    unfold key; cbn. fold (key s). by rewrite Hpool.
Qed.

Lemma shuffle_reaches_every_order_witness :
  ∃ rnd s', shuffle rnd demo.loaded = Returned s' ∧ pool s' = ["Leah"; "Ari"]%string.
Proof.
  apply (shuffle_reaches_every_order demo.loaded ["Leah"; "Ari"]%string).
  change (pool demo.loaded) with ["Ari"; "Leah"]%string. apply perm_swap.
Defined.

End laws.
